(** * chunk_processor.py: chunked CSV processing

    A shallow embedding of [ChunkProcessor] / [ChunkProcessorCsv]
    (src/chunk_processor.py) and the properties of its per-batch loop.

    What is modelled from the source:
    - [apply_processing_funcs]: the [for func in self.processing_funcs] loop;
    - [read_chunks]: the generator (encoding detection, the two log calls,
      the [enumerate(reader, 1)] loop with one log call and one [yield] per
      chunk);
    - [process]: opening the output with mode ['w'], the counters, the
      [try / except Exception] around transform, write and accounting, and
      the five summary log calls.

    What is outside the source and enters as an environment ([env]):
    opening files, [chardet.detect], [pd.read_csv] and the failure behaviour
    of [DataFrame.to_csv].  Wall-clock measurements ([time.time()]) only feed
    log messages and are left out of the log events. *)

From Stdlib Require Import ZArith Lia Sorted Ascii.
From stdpp Require Import base list strings gmap.

Set Default Proof Using "Type".

(** ** Exceptions and fallible computations *)

(** [except Exception] catches the instances of [Exception]; [SystemExit],
    [KeyboardInterrupt] and [GeneratorExit] derive from [BaseException]
    only and pass through such a handler. *)
Inductive exn_class := ExceptionClass | BaseExceptionOnly.

Record exn := Exn { exn_cls : exn_class; exn_msg : string }.

Definition is_Exception (e : exn) : bool :=
  match exn_cls e with ExceptionClass => true | BaseExceptionOnly => false end.

Inductive result (A : Type) : Type :=
| Ok (a : A)
| Raise (e : exn).
Arguments Ok {A} a.
Arguments Raise {A} e.

Definition bind {A B} (r : result A) (f : A -> result B) : result B :=
  match r with
  | Ok a => f a
  | Raise e => Raise e
  end.

Declare Scope result_scope.
Delimit Scope result_scope with result.
Notation "x <~ r ;; k" := (bind r (fun x => k))
  (at level 100, r at next level, right associativity) : result_scope.
Local Open Scope result_scope.

(** ** Data frames *)

(** A cell is a value or missing ([NaN] / [None] in pandas). *)
Definition cell := option string.
Definition row := list cell.

Record DataFrame := { columns : list string; rows : list row }.

(** [len(chunk)] *)
Definition len (df : DataFrame) : nat := length (rows df).

Definition count_nulls (r : row) : nat := length (filter (fun c : cell => c = None) r).

(** [chunk.isnull().sum().sum()]: the number of missing cells of the frame. *)
Definition isnull_sum_sum (df : DataFrame) : nat := sum_list (count_nulls <$> rows df).

Definition transform := DataFrame -> result DataFrame.

(** ** The processor object *)

Record ChunkProcessor := {
  input_file : string;
  output_file : string;
  chunk_size : Z;
  processing_funcs : list transform
}.

(** The [processing_funcs] argument of [__init__]: [None], one callable, or a
    list. *)
Inductive funcs_arg :=
| FuncsNone
| FuncsCallable (f : transform)
| FuncsList (fs : list transform).

Definition init_processing_funcs (a : funcs_arg) : list transform :=
  match a with
  | FuncsNone => []
  | FuncsCallable f => [f]
  | FuncsList fs => fs
  end.

(** [for func in funcs: chunk = func(chunk)] then [return chunk]. *)
Fixpoint apply_funcs (funcs : list transform) (chunk : DataFrame) : result DataFrame :=
  match funcs with
  | [] => Ok chunk
  | func :: funcs' => chunk' <~ func chunk ;; apply_funcs funcs' chunk'
  end.

Definition apply_processing_funcs (self : ChunkProcessor) (chunk : DataFrame)
  : result DataFrame :=
  apply_funcs (processing_funcs self) chunk.

(** The claim's reading of the pipeline: [fn(...f2(f1(b))...)], the last
    function applied to the result of the others. *)
Definition nested_application (fs : list transform) (b : DataFrame) : result DataFrame :=
  foldr (fun f inner => bind inner f) (Ok b) (reverse fs).

(** ** Log events *)

Inductive level := INFO | ERROR.

(** One constructor per [self.logger.info] / [self.logger.error] call of the
    source, carrying the values interpolated in the message. *)
Inductive event :=
| Started (input : string)
| EncodingDetected (encoding : option string)
| ReadingCsv (encoding : option string)
| ChunkRead (i : nat) (n : nat)
| ChunkProcessed (chunk_number num_rows num_nulls : nat)
| ChunkError (chunk_number : nat) (e : exn)
| Finished (output : string)
| TotalChunks (chunk_number : nat)
| TotalRows (total_rows : nat)
| TotalNulls (total_nulls : nat)
| TotalTime.

Definition event_level (ev : event) : level :=
  match ev with
  | ChunkError _ _ => ERROR
  | _ => INFO
  end.

Definition is_error (ev : event) : bool :=
  match event_level ev with ERROR => true | INFO => false end.

(** ** Iterators and generators *)

(** What iterating a [pd.read_csv(..., chunksize=...)] reader gives: chunks,
    then [StopIteration] or an exception of the parser. *)
Inductive iter (A : Type) : Type :=
| IStop
| INext (a : A) (k : iter A)
| IRaise (e : exn).
Arguments IStop {A}.
Arguments INext {A} a k.
Arguments IRaise {A} e.

(** The generator [read_chunks]: its observable actions in order. *)
Inductive gen :=
| GLog (ev : event) (k : gen)
| GYield (chunk : DataFrame) (k : gen)
| GReturn
| GRaise (e : exn).

(** The chunks a generator yields, in order. *)
Fixpoint yields (g : gen) : list DataFrame :=
  match g with
  | GLog _ k => yields k
  | GYield chunk k => chunk :: yields k
  | GReturn | GRaise _ => []
  end.

(** The exception that ends the generator, if any. *)
Fixpoint gen_raises (g : gen) : option exn :=
  match g with
  | GLog _ k | GYield _ k => gen_raises k
  | GReturn => None
  | GRaise e => Some e
  end.

(** ** Output lines *)

Inductive line :=
| HeaderLine (cols : list string)
| DataLine (r : row).

Definition is_header (l : line) : bool :=
  match l with HeaderLine _ => true | DataLine _ => false end.

Definition is_data (l : line) : bool := negb (is_header l).

(** The lines of [df.to_csv(f, index=False, header=h)]. *)
Definition csv_lines (df : DataFrame) (h : bool) : list line :=
  (if h then [HeaderLine (columns df)] else []) ++ (DataLine <$> rows df).

(** ** The environment *)

Record env := {
  (** [open(path, 'rb')] and reading it: the bytes, or the exception. *)
  open_rb : string -> result (list Byte.byte);
  (** [chardet.detect(raw)['encoding']]; may be [None]. *)
  chardet_detect : list Byte.byte -> option string;
  (** [pd.read_csv(path, chunksize=c, encoding=enc)]. *)
  pd_read_csv : string -> Z -> option string -> result (iter DataFrame);
  (** [open(path, 'w', ...)]: the exception it raises, if any. *)
  open_w : string -> option exn;
  (** Failure of the [to_csv] call of chunk number [n] on frame [df]:
      [Some (k, e)] when it raises [e] after [k] lines went to the stream. *)
  to_csv_fault : nat -> DataFrame -> option (nat * exn)
}.

(** [chunk.to_csv(f_out, index=False, header=h)] for chunk number [n]: the
    stream afterwards and the exception raised, if any. *)
Definition to_csv (E : env) (n : nat) (df : DataFrame) (f : list line) (h : bool)
  : list line * option exn :=
  match to_csv_fault E n df with
  | None => (f ++ csv_lines df h, None)
  | Some (k, e) => (f ++ take k (csv_lines df h), Some e)
  end.

(** ** [ChunkProcessorCsv.read_chunks] *)

Definition sample_size : nat := Z.to_nat 10000.

(** [detect_encoding]: the label, after reading the sample. The log call is
    emitted by [read_chunks] below, in the source's order. *)
Definition detect_encoding (E : env) (self : ChunkProcessor) : result (option string) :=
  raw <~ open_rb E (input_file self) ;;
  Ok (chardet_detect E (take sample_size raw)).

(** [for i, chunk in enumerate(reader, 1): log; yield chunk] *)
Fixpoint enumerate_yield (i : nat) (reader : iter DataFrame) : gen :=
  match reader with
  | IStop => GReturn
  | IRaise e => GRaise e
  | INext chunk k => GLog (ChunkRead i (len chunk)) (GYield chunk (enumerate_yield (S i) k))
  end.

Definition read_chunks (E : env) (self : ChunkProcessor) : gen :=
  match detect_encoding E self with
  | Raise e => GRaise e
  | Ok encoding =>
      GLog (EncodingDetected encoding)
        (GLog (ReadingCsv encoding)
           match pd_read_csv E (input_file self) (chunk_size self) encoding with
           | Raise e => GRaise e
           | Ok reader => enumerate_yield 1 reader
           end)
  end.

(** ** [ChunkProcessorCsv.process] *)

(** The local variables of [process], the content of the output file and the
    log. *)
Record state := {
  chunk_number : nat;
  total_rows : nat;
  total_nulls : nat;
  header_written : bool;
  f_out : list line;
  log : list event
}.

Definition add_log (st : state) (ev : event) : state :=
  {| chunk_number := chunk_number st; total_rows := total_rows st;
     total_nulls := total_nulls st; header_written := header_written st;
     f_out := f_out st; log := log st ++ [ev] |}.

Definition set_f_out (st : state) (f : list line) : state :=
  {| chunk_number := chunk_number st; total_rows := total_rows st;
     total_nulls := total_nulls st; header_written := header_written st;
     f_out := f; log := log st |}.

(** [chunk_number += 1] *)
Definition next_chunk (st : state) : state :=
  {| chunk_number := S (chunk_number st); total_rows := total_rows st;
     total_nulls := total_nulls st; header_written := header_written st;
     f_out := f_out st; log := log st |}.

(** Lines 117-126: the statements after a [to_csv] that returned. *)
Definition account (st : state) (chunk : DataFrame) : state :=
  let num_rows := len chunk in
  let num_nulls := isnull_sum_sum chunk in
  {| chunk_number := chunk_number st;
     total_rows := total_rows st + num_rows;
     total_nulls := total_nulls st + num_nulls;
     header_written := true;
     f_out := f_out st;
     log := log st ++ [ChunkProcessed (chunk_number st) num_rows num_nulls] |}.

(** [except Exception as e: self.logger.error(...)]; anything else
    propagates. *)
Definition except_Exception (st : state) (e : exn) : state * option exn :=
  if is_Exception e then (add_log st (ChunkError (chunk_number st) e), None)
  else (st, Some e).

(** One iteration of the [for chunk in self.read_chunks()] loop. The second
    component is the exception that leaves the loop, if any. *)
Definition loop_body (E : env) (self : ChunkProcessor) (st : state) (chunk : DataFrame)
  : state * option exn :=
  let st := next_chunk st in
  match apply_processing_funcs self chunk with
  | Raise e => except_Exception st e
  | Ok chunk' =>
      let '(f, r) := to_csv E (chunk_number st) chunk' (f_out st) (negb (header_written st)) in
      let st := set_f_out st f in
      match r with
      | Some e => except_Exception st e
      | None => (account st chunk', None)
      end
  end.

Fixpoint for_loop (E : env) (self : ChunkProcessor) (g : gen) (st : state)
  : state * option exn :=
  match g with
  | GLog ev k => for_loop E self k (add_log st ev)
  | GYield chunk k =>
      match loop_body E self st chunk with
      | (st', Some e) => (st', Some e)
      | (st', None) => for_loop E self k st'
      end
  | GReturn => (st, None)
  | GRaise e => (st, Some e)
  end.

(** The states after each iteration of the loop body, in order. *)
Fixpoint loop_trace (E : env) (self : ChunkProcessor) (g : gen) (st : state) : list state :=
  match g with
  | GLog ev k => loop_trace E self k (add_log st ev)
  | GYield chunk k =>
      match loop_body E self st chunk with
      | (st', Some e) => [st']
      | (st', None) => st' :: loop_trace E self k st'
      end
  | GReturn | GRaise _ => []
  end.

Definition summary (self : ChunkProcessor) (st : state) : list event :=
  [ Finished (output_file self); TotalChunks (chunk_number st);
    TotalRows (total_rows st); TotalNulls (total_nulls st); TotalTime ].

(** The state at the [with open(... 'w' ...)] line: the file is truncated. *)
Definition initial_state (self : ChunkProcessor) : state :=
  {| chunk_number := 0; total_rows := 0; total_nulls := 0; header_written := false;
     f_out := []; log := [Started (input_file self)] |}.

(** [process], run on an output path whose previous content is [old]. The
    result is the final state ([f_out] is the content of the output file when
    the call ends) and the exception that leaves the call, if any. *)
Definition process (E : env) (self : ChunkProcessor) (old : list line)
  : state * option exn :=
  match open_w E (output_file self) with
  | Some e => (set_f_out (initial_state self) old, Some e)
  | None =>
      match for_loop E self (read_chunks E self) (initial_state self) with
      | (st, Some e) => (st, Some e)
      | (st, None) =>
          ({| chunk_number := chunk_number st; total_rows := total_rows st;
              total_nulls := total_nulls st; header_written := header_written st;
              f_out := f_out st; log := log st ++ summary self st |}, None)
      end
  end.

(** ** Per-batch outcomes, as functions of the batch alone *)

(** What the [try] block does with chunk number [n]: the transformed frame
    when transform and write both return, the exception otherwise. *)
Definition batch_result (E : env) (self : ChunkProcessor) (n : nat) (chunk : DataFrame)
  : result DataFrame :=
  chunk' <~ apply_processing_funcs self chunk ;;
  match to_csv_fault E n chunk' with
  | None => Ok chunk'
  | Some (_, e) => Raise e
  end.

(** The lines chunk number [n] adds to the output when the header flag is
    [hw]: nothing when the transforms raise, everything when the write
    returns, and what the write emitted before raising otherwise. *)
Definition batch_output (E : env) (self : ChunkProcessor) (n : nat) (hw : bool)
  (chunk : DataFrame) : list line :=
  match apply_processing_funcs self chunk with
  | Raise _ => []
  | Ok chunk' =>
      match to_csv_fault E n chunk' with
      | None => csv_lines chunk' (negb hw)
      | Some (k, _) => take k (csv_lines chunk' (negb hw))
      end
  end.

(** The exception raised inside the [try] block of this iteration, if any. *)
Definition body_exception (E : env) (self : ChunkProcessor) (st : state) (chunk : DataFrame)
  : option exn :=
  match batch_result E self (S (chunk_number st)) chunk with
  | Ok _ => None
  | Raise e => Some e
  end.

(** The transformed frames of the batches that were processed successfully,
    among [chunks] numbered from [n]. *)
Fixpoint successes (E : env) (self : ChunkProcessor) (n : nat) (chunks : list DataFrame)
  : list DataFrame :=
  match chunks with
  | [] => []
  | chunk :: chunks' =>
      match batch_result E self n chunk with
      | Ok chunk' => chunk' :: successes E self (S n) chunks'
      | Raise _ => successes E self (S n) chunks'
      end
  end.

(** The exceptions of the batches that failed, with their batch numbers. *)
Fixpoint failures (E : env) (self : ChunkProcessor) (n : nat) (chunks : list DataFrame)
  : list (nat * exn) :=
  match chunks with
  | [] => []
  | chunk :: chunks' =>
      match batch_result E self n chunk with
      | Ok _ => failures E self (S n) chunks'
      | Raise e => (n, e) :: failures E self (S n) chunks'
      end
  end.

(** What failed writes leave in the file while no header has been written:
    the output of [chunks], numbered from [n], all of which fail. *)
Fixpoint failed_output (E : env) (self : ChunkProcessor) (n : nat) (chunks : list DataFrame)
  : list line :=
  match chunks with
  | [] => []
  | chunk :: chunks' =>
      batch_output E self n false chunk ++ failed_output E self (S n) chunks'
  end.

Definition succeeded (E : env) (self : ChunkProcessor) (n : nat) (chunk : DataFrame) : bool :=
  match batch_result E self n chunk with Ok _ => true | Raise _ => false end.

(** The lines that [chunks], numbered from [n], add to the output when the
    header flag is [hw] before the first of them. *)
Fixpoint run_output (E : env) (self : ChunkProcessor) (n : nat) (hw : bool)
  (chunks : list DataFrame) : list line :=
  match chunks with
  | [] => []
  | chunk :: chunks' =>
      batch_output E self n hw chunk
        ++ run_output E self (S n) (hw || succeeded E self n chunk) chunks'
  end.

(** The [ChunkError] records of a log: batch number and exception. *)
Definition error_of (ev : event) : option (nat * exn) :=
  match ev with ChunkError n e => Some (n, e) | _ => None end.

Definition logged_errors (l : list event) : list (nat * exn) := omap error_of l.

(** The generator itself logs at level INFO only, as [read_chunks] does. *)
Fixpoint gen_logs_info (g : gen) : bool :=
  match g with
  | GLog ev k => negb (is_error ev) && gen_logs_info k
  | GYield _ k => gen_logs_info k
  | GReturn | GRaise _ => true
  end.

(** The batches the loop got to: the first [chunk_number] yielded ones. *)
Definition attempted (g : gen) (st : state) : list DataFrame :=
  take (chunk_number st) (yields g).

Definition le_totals (s1 s2 : state) : Prop :=
  total_rows s1 <= total_rows s2 /\ total_nulls s1 <= total_nulls s2.

(** No failing [to_csv] call leaves output behind. *)
Definition clean_write_failures (E : env) : Prop :=
  forall n df k e, to_csv_fault E n df = Some (k, e) -> k = 0.

(** ** The chunked reader of the parsing engine

    [pd.read_csv(path, chunksize=c)] is not part of the repository. The model
    below follows the iteration protocol of pandas' [TextFileReader]: each
    [__next__] is [read(nrows=chunksize)], which returns the next
    [chunksize] rows (fewer at the end of the file); a read that finds no row
    raises [StopIteration], except the very first read, which returns the
    empty frame carrying the columns of the header; [chunksize < 1] is
    rejected with a [ValueError] when the reader is built. *)

Record csv_table := { header : list string; data : list row }.

Fixpoint TextFileReader (fuel : nat) (cols : list string) (chunksize : nat)
  (first_chunk : bool) (remaining : list row) : iter DataFrame :=
  match fuel with
  | 0 => IStop
  | S fuel' =>
      match remaining with
      | [] =>
          if first_chunk
          then INext {| columns := cols; rows := [] |}
                 (TextFileReader fuel' cols chunksize false [])
          else IStop
      | _ :: _ =>
          INext {| columns := cols; rows := take chunksize remaining |}
            (TextFileReader fuel' cols chunksize false (drop chunksize remaining))
      end
  end.

Definition read_csv (t : csv_table) (chunksize : Z) : result (iter DataFrame) :=
  if (chunksize <? 1)%Z
  then Raise (Exn ExceptionClass "'chunksize' must be an integer >=1")
  else Ok (TextFileReader (S (length (data t))) (header t) (Z.to_nat chunksize) true (data t)).

(** The input file of [self] can be opened and parses to the table [t]. *)
Definition parses_to (E : env) (self : ChunkProcessor) (t : csv_table) : Prop :=
  exists raw,
    open_rb E (input_file self) = Ok raw /\
    pd_read_csv E (input_file self) (chunk_size self)
      (chardet_detect E (take sample_size raw)) = read_csv t (chunk_size self).

(** The chunks an iterator delivers. *)
Fixpoint iter_items {A} (it : iter A) : list A :=
  match it with
  | INext a k => a :: iter_items k
  | IStop | IRaise _ => []
  end.

(** [ceil(r / c)] for [c > 0]. *)
Definition ceil_div (r c : nat) : nat := (r + c - 1) / c.

(** ** The claims that do not hold as stated, as predicates *)

(** C1 as stated, for one iteration: whatever exception the [try] block
    raises, nothing leaves the loop, the error is logged with the batch
    number, the totals are unchanged and the file gains no data line. *)
Definition batch_isolation_claim (E : env) (self : ChunkProcessor) (st : state)
  (chunk : DataFrame) : Prop :=
  forall e, body_exception E self st chunk = Some e ->
    let st' := (loop_body E self st chunk).1 in
    (loop_body E self st chunk).2 = None /\
    log st' = log st ++ [ChunkError (S (chunk_number st)) e] /\
    total_rows st' = total_rows st /\
    total_nulls st' = total_nulls st /\
    filter (fun l => is_data l = true) (f_out st') = filter (fun l => is_data l = true) (f_out st).

(** C2 as stated: the output of a run has exactly one header line, and it
    comes before any data line. *)
Definition one_header_first (out : list line) : Prop :=
  exists cols body, out = HeaderLine cols :: body /\ Forall (fun l => is_data l = true) body.

(** ** Concrete runs *)

Definition example_table : csv_table :=
  {| header := ["id"; "name"];
     data := [ [Some "1"; Some "ana"]; [Some "2"; None]; [Some "3"; Some "bia"] ] |}.

Definition header_only_table : csv_table := {| header := ["id"; "name"]; data := [] |}.

Definition no_fault : nat -> DataFrame -> option (nat * exn) := fun _ _ => None.

(** The [UnicodeEncodeError] of a text stream opened with [encoding='utf-8']
    on a cell that holds a lone surrogate. *)
Definition encode_error : exn :=
  Exn ExceptionClass "UnicodeEncodeError: 'utf-8' codec can't encode character: surrogates not allowed".

(** The write of chunk number [i] raises after [k] lines. *)
Definition fault_at (i k : nat) : nat -> DataFrame -> option (nat * exn) :=
  fun n _ => if n =? i then Some (k, encode_error) else None.

Definition example_env (t : csv_table) (fault : nat -> DataFrame -> option (nat * exn)) : env :=
  {| open_rb := fun _ => Ok [];
     chardet_detect := fun _ => Some "utf-8";
     pd_read_csv := fun _ c _ => read_csv t c;
     open_w := fun _ => None;
     to_csv_fault := fault |}.

Definition example_self (c : Z) (fs : list transform) : ChunkProcessor :=
  {| input_file := "data.csv"; output_file := "data_processed.csv";
     chunk_size := c; processing_funcs := fs |}.

(** A transform that raises [ValueError] on every batch. *)
Definition always_fail : transform := fun _ => Raise (Exn ExceptionClass "ValueError: bad batch").

(** A transform that calls [sys.exit]. *)
Definition sys_exit : transform := fun _ => Raise (Exn BaseExceptionOnly "SystemExit: 1").

(** [df.dropna()] *)
Definition dropna : transform :=
  fun df => Ok {| columns := columns df; rows := filter (fun r => count_nulls r = 0) (rows df) |}.

Definition example_chunk : DataFrame :=
  {| columns := ["id"; "name"]; rows := [ [Some "1"; Some "ana"]; [Some "2"; None] ] |}.

(** ** Logs and outputs of whole runs *)

(** The exception that ends an iterator, if any. *)
Fixpoint iter_raises {A} (it : iter A) : option exn :=
  match it with
  | INext _ k => iter_raises k
  | IStop => None
  | IRaise e => Some e
  end.

(** The two log records of each batch of [chunks], numbered from [n]: the
    one of [read_chunks] when it is read, then the one of [process]. *)
Fixpoint batch_logs (E : env) (self : ChunkProcessor) (n : nat) (chunks : list DataFrame)
  : list event :=
  match chunks with
  | [] => []
  | chunk :: chunks' =>
      ChunkRead n (len chunk)
        :: match batch_result E self n chunk with
           | Ok chunk' => ChunkProcessed n (len chunk') (isnull_sum_sum chunk')
           | Raise e => ChunkError n e
           end
        :: batch_logs E self (S n) chunks'
  end.

(** Every exception raised in a [try] block of the run is an [Exception]. *)
Definition batches_raise_Exceptions (E : env) (self : ChunkProcessor) : Prop :=
  forall n chunk e, batch_result E self n chunk = Raise e -> is_Exception e = true.


(** ** Paths, construction and logging

    [pathlib] and [logging] belong to the standard library of Python. A path
    is taken as parsed: the directory part, which [with_name] keeps, and the
    final component. [stem] and [suffix] follow [PurePath] (Python 3.8 to
    3.13): [i = name.rfind('.')], and the name is split at [i] when
    [0 < i < len(name) - 1]. *)

Record Path := { parent : string; name : string }.

(** [s.rfind('.')] *)
Fixpoint rfind_dot (s : string) : Z :=
  match s with
  | EmptyString => (-1)%Z
  | String a s' =>
      let i := rfind_dot s' in
      if (0 <=? i)%Z then (i + 1)%Z
      else if Ascii.eqb a "."%char then 0%Z else (-1)%Z
  end.

(** [s[:n]] *)
Fixpoint str_take (n : nat) (s : string) : string :=
  match n, s with
  | S n', String a s' => String a (str_take n' s')
  | _, _ => EmptyString
  end.

(** [s[n:]] *)
Fixpoint str_drop (n : nat) (s : string) : string :=
  match n, s with
  | S n', String _ s' => str_drop n' s'
  | _, _ => s
  end.

Definition splits_at_dot (nm : string) : bool :=
  let i := rfind_dot nm in
  (0 <? i)%Z && (i <? Z.of_nat (String.length nm) - 1)%Z.

Definition suffix (p : Path) : string :=
  if splits_at_dot (name p) then str_drop (Z.to_nat (rfind_dot (name p))) (name p)
  else EmptyString.

Definition stem (p : Path) : string :=
  if splits_at_dot (name p) then str_take (Z.to_nat (rfind_dot (name p))) (name p)
  else name p.

(** ['/' in s] *)
Fixpoint contains_sep (s : string) : bool :=
  match s with
  | EmptyString => false
  | String a s' => Ascii.eqb a "/"%char || contains_sep s'
  end.

(** [PurePosixPath.with_name]; the messages of the two [ValueError]s are
    shortened. *)
Definition with_name (p : Path) (new : string) : result Path :=
  if String.eqb (name p) ""
  then Raise (Exn ExceptionClass "ValueError: path has an empty name")
  else if String.eqb new "" || contains_sep new || String.eqb new "."
  then Raise (Exn ExceptionClass "ValueError: invalid name")
  else Ok {| parent := parent p; name := new |}.

Definition _default_output_file (input_file : Path) : result Path :=
  with_name input_file (stem input_file +:+ "_processed" +:+ suffix input_file).

(** [self.input_file.with_name(f"{self.input_file.stem}_processing.log")] *)
Definition log_file_of (input_file : Path) : result Path :=
  with_name input_file (stem input_file +:+ "_processing.log").

(** The name passed to [logging.getLogger]. *)
Definition logger_name (input_file : Path) : string :=
  "ChunkProcessor_" +:+ stem input_file.

Inductive handler :=
| FileHandler (filename : Path)
| StreamHandler.


(** The loggers of the [logging] module: the handlers attached to each
    logger name. [getLogger] returns the one logger of a name, so a logger
    that was never set up has no handlers. *)
Definition handlers_of (loggers : gmap string (list handler)) (logger : string)
  : list handler :=
  default [] (loggers !! logger).

(** [logging.getLogger(logger).addHandler(h)] with a new handler object. *)
Definition addHandler (loggers : gmap string (list handler)) (logger : string)
  (h : handler) : gmap string (list handler) :=
  <[logger := handlers_of loggers logger ++ [h]]> loggers.

(** [_setup_logger]: [open_log] is the exception of opening the log file
    with mode ['w'], if any. *)
Definition _setup_logger (open_log : Path -> option exn)
  (loggers : gmap string (list handler)) (input_file log_file : Path)
  : result (gmap string (list handler)) :=
  let logger := logger_name input_file in
  match open_log log_file with
  | Some e => Raise e
  | None => Ok (addHandler (addHandler loggers logger (FileHandler log_file))
                  logger StreamHandler)
  end.

(** The object after [__init__], with the fields the class adds to the
    configuration. *)
Record constructed := {
  self_of : ChunkProcessor;
  output_path : Path;
  log_file : Path;
  logger : string
}.

(** [ChunkProcessor.__init__]. [fspath] gives the string of a path;
    [output_file = None] stands for the falsy arguments ([None], [""]) and
    [chunk_size = None] for the default. *)
Definition init (fspath : Path -> string) (open_log : Path -> option exn)
  (loggers : gmap string (list handler))
  (input_file : Path) (output_file : option Path) (chunk_size : option Z)
  (processing_funcs : funcs_arg) : result (constructed * gmap string (list handler)) :=
  out <~ match output_file with
         | Some p => Ok p
         | None => _default_output_file input_file
         end ;;
  lf <~ log_file_of input_file ;;
  loggers' <~ _setup_logger open_log loggers input_file lf ;;
  Ok ({| self_of := {| input_file := fspath input_file;
                       output_file := fspath out;
                       chunk_size := default 1000%Z chunk_size;
                       processing_funcs := init_processing_funcs processing_funcs |};
         output_path := out; log_file := lf; logger := logger_name input_file |},
      loggers').







(** A reader that delivers one chunk and then fails on a malformed line. *)
Definition parser_error : exn :=
  Exn ExceptionClass "ParserError: Error tokenizing data".

Definition broken_reader_env : env :=
  {| open_rb := fun _ => Ok [];
     chardet_detect := fun _ => Some "utf-8";
     pd_read_csv := fun _ _ _ => Ok (INext example_chunk (IRaise parser_error));
     open_w := fun _ => None;
     to_csv_fault := no_fault |}.

(** * Properties *)

(** ** The result monad *)

Lemma bind_assoc {A B C} (r : result A) (f : A -> result B) (g : B -> result C) :
  bind (bind r f) g = bind r (fun a => bind (f a) g).
Proof. destruct r; reflexivity. Qed.

Lemma bind_Ok_r {A} (r : result A) : bind r Ok = r.
Proof. destruct r; reflexivity. Qed.

(** ** The transform pipeline *)

Lemma apply_funcs_app fs gs b :
  apply_funcs (fs ++ gs) b = bind (apply_funcs fs b) (apply_funcs gs).
Proof.
  revert b. induction fs as [|f fs IH]; intros b; simpl.
  - reflexivity.
  - destruct (f b) as [b'|e]; simpl; [apply IH | reflexivity].
Qed.

Lemma apply_funcs_snoc fs f b :
  apply_funcs (fs ++ [f]) b = bind (apply_funcs fs b) f.
Proof.
  rewrite apply_funcs_app. destruct (apply_funcs fs b) as [b'|e]; simpl; [|reflexivity].
  apply bind_Ok_r.
Qed.

Lemma nested_application_snoc fs f b :
  nested_application (fs ++ [f]) b = bind (nested_application fs b) f.
Proof. unfold nested_application. rewrite reverse_snoc. reflexivity. Qed.

Lemma apply_funcs_nested fs b : apply_funcs fs b = nested_application fs b.
Proof.
  induction fs as [|f fs IH] using rev_ind.
  - reflexivity.
  - rewrite apply_funcs_snoc, nested_application_snoc, IH. reflexivity.
Qed.

(** Transforms that never raise compose as plain functions. *)
Lemma apply_funcs_total (gs : list (DataFrame -> DataFrame)) b :
  apply_funcs ((fun g x => Ok (g x)) <$> gs) b = Ok (foldl (fun x g => g x) b gs).
Proof.
  revert b. induction gs as [|g gs IH]; intros b; simpl; [reflexivity | apply IH].
Qed.

(** The first transform that raises ends the pipeline with its exception. *)
Lemma apply_funcs_raise fs f gs b b' e :
  apply_funcs fs b = Ok b' -> f b' = Raise e ->
  apply_funcs (fs ++ f :: gs) b = Raise e.
Proof.
  intros H1 H2. rewrite apply_funcs_app, H1. simpl. rewrite H2. reflexivity.
Qed.

(** C7: [apply_processing_funcs] applies the configured functions in order,
    each to the result of the one before: it is [fn(...f2(f1(b))...)], for a
    list extended by [f] it is [f] applied to the result for the list, and
    with an empty list (also the [None] default of [__init__]) it returns the
    batch unchanged. *)
Theorem apply_processing_funcs_in_order :
  (forall self b,
      apply_processing_funcs self b = nested_application (processing_funcs self) b) /\
  (forall inp out c fs f b,
      apply_processing_funcs
        {| input_file := inp; output_file := out; chunk_size := c;
           processing_funcs := fs ++ [f] |} b
      = bind (apply_processing_funcs
                {| input_file := inp; output_file := out; chunk_size := c;
                   processing_funcs := fs |} b) f) /\
  (forall inp out c b,
      apply_processing_funcs
        {| input_file := inp; output_file := out; chunk_size := c;
           processing_funcs := init_processing_funcs FuncsNone |} b = Ok b).
Proof.
  split; [|split].
  - intros self b. apply apply_funcs_nested.
  - intros inp out c fs f b. apply apply_funcs_snoc.
  - reflexivity.
Qed.

(** ** One iteration of the loop *)

Lemma loop_body_eq E self st chunk :
  loop_body E self st chunk =
  let n := S (chunk_number st) in
  let st1 := set_f_out (next_chunk st)
               (f_out st ++ batch_output E self n (header_written st) chunk) in
  match batch_result E self n chunk with
  | Ok chunk' => (account st1 chunk', None)
  | Raise e => except_Exception st1 e
  end.
Proof.
  unfold loop_body, batch_result, batch_output, to_csv. simpl.
  destruct (apply_processing_funcs self chunk) as [chunk'|e]; simpl.
  - destruct (to_csv_fault E (S (chunk_number st)) chunk') as [[k e]|]; reflexivity.
  - rewrite app_nil_r. destruct st; reflexivity.
Qed.

Lemma except_Exception_fields st e :
  chunk_number (except_Exception st e).1 = chunk_number st /\
  total_rows (except_Exception st e).1 = total_rows st /\
  total_nulls (except_Exception st e).1 = total_nulls st /\
  header_written (except_Exception st e).1 = header_written st /\
  f_out (except_Exception st e).1 = f_out st.
Proof. unfold except_Exception. destruct (is_Exception e); simpl; auto. Qed.

Lemma except_Exception_result st e :
  (except_Exception st e).2 = if is_Exception e then None else Some e.
Proof. unfold except_Exception. destruct (is_Exception e); reflexivity. Qed.

Lemma batch_output_transform_raise E self n hw chunk e :
  apply_processing_funcs self chunk = Raise e -> batch_output E self n hw chunk = [].
Proof. unfold batch_output. intros ->. reflexivity. Qed.

Lemma batch_output_success E self n hw chunk chunk' :
  batch_result E self n chunk = Ok chunk' ->
  batch_output E self n hw chunk = csv_lines chunk' (negb hw).
Proof.
  unfold batch_result, batch_output.
  destruct (apply_processing_funcs self chunk) as [c|e]; simpl; [|discriminate].
  destruct (to_csv_fault E n c) as [[k e]|]; [discriminate|].
  intros [= ->]. reflexivity.
Qed.

Lemma batch_result_Ok_inv E self n chunk chunk' :
  batch_result E self n chunk = Ok chunk' ->
  apply_processing_funcs self chunk = Ok chunk' /\ to_csv_fault E n chunk' = None.
Proof.
  unfold batch_result.
  destruct (apply_processing_funcs self chunk) as [c|e]; simpl; [|discriminate].
  destruct (to_csv_fault E n c) as [[k e]|] eqn:Hf; [discriminate|].
  intros [= ->]. auto.
Qed.

Lemma batch_output_clean_failure E self n hw chunk e :
  clean_write_failures E ->
  batch_result E self n chunk = Raise e -> batch_output E self n hw chunk = [].
Proof.
  unfold batch_result, batch_output. intros Hclean.
  destruct (apply_processing_funcs self chunk) as [c|e']; simpl; [|reflexivity].
  destruct (to_csv_fault E n c) as [[k e']|] eqn:Hf; [|discriminate].
  intros _. rewrite (Hclean _ _ _ _ Hf). reflexivity.
Qed.

(** C9: when a batch is processed successfully, what is written and what is
    added to [total_rows] and [total_nulls] is computed on the batch returned
    by the transforms, not on the batch as read. *)
Theorem totals_count_transformed_batch E self st chunk chunk' :
  apply_processing_funcs self chunk = Ok chunk' ->
  to_csv_fault E (S (chunk_number st)) chunk' = None ->
  let st' := (loop_body E self st chunk).1 in
  (loop_body E self st chunk).2 = None /\
  total_rows st' = total_rows st + len chunk' /\
  total_nulls st' = total_nulls st + isnull_sum_sum chunk' /\
  f_out st' = f_out st ++ csv_lines chunk' (negb (header_written st)) /\
  log st' = log st ++ [ChunkProcessed (S (chunk_number st)) (len chunk') (isnull_sum_sum chunk')].
Proof.
  intros Ht Hw. unfold loop_body, to_csv. simpl. rewrite Ht. simpl. rewrite Hw. simpl.
  repeat split; reflexivity.
Qed.

Lemma loop_body_fields E self st chunk :
  let n := S (chunk_number st) in
  let st' := (loop_body E self st chunk).1 in
  chunk_number st' = n /\
  total_rows st' = total_rows st + sum_list (len <$> successes E self n [chunk]) /\
  total_nulls st' = total_nulls st + sum_list (isnull_sum_sum <$> successes E self n [chunk]) /\
  header_written st' = header_written st || succeeded E self n chunk /\
  f_out st' = f_out st ++ batch_output E self n (header_written st) chunk.
Proof.
  rewrite loop_body_eq. unfold succeeded. simpl.
  destruct (batch_result E self (S (chunk_number st)) chunk) as [c|e]; simpl.
  - rewrite !Nat.add_0_r, orb_true_r. auto.
  - destruct (except_Exception_fields
                (set_f_out (next_chunk st)
                   (f_out st ++ batch_output E self (S (chunk_number st)) (header_written st) chunk)) e)
      as (-> & -> & -> & -> & ->).
    simpl. rewrite !Nat.add_0_r, orb_false_r. auto.
Qed.

Lemma loop_body_result E self st chunk :
  (loop_body E self st chunk).2 =
  match batch_result E self (S (chunk_number st)) chunk with
  | Ok _ => None
  | Raise e => if is_Exception e then None else Some e
  end.
Proof.
  rewrite loop_body_eq. simpl.
  destruct (batch_result E self (S (chunk_number st)) chunk) as [c|e]; simpl; [reflexivity|].
  apply except_Exception_result.
Qed.

Lemma loop_body_log E self st chunk :
  log (loop_body E self st chunk).1 =
  log st ++
  match batch_result E self (S (chunk_number st)) chunk with
  | Ok chunk' => [ChunkProcessed (S (chunk_number st)) (len chunk') (isnull_sum_sum chunk')]
  | Raise e => if is_Exception e then [ChunkError (S (chunk_number st)) e] else []
  end.
Proof.
  rewrite loop_body_eq. simpl.
  destruct (batch_result E self (S (chunk_number st)) chunk) as [c|e]; simpl; [reflexivity|].
  unfold except_Exception. destruct (is_Exception e); simpl; [reflexivity|].
  rewrite app_nil_r. reflexivity.
Qed.

(** ** The whole loop *)

(** What the loop does to the counters, the flag and the file, in terms of
    the batches it got to. *)
Lemma for_loop_run E self g st :
  let st' := (for_loop E self g st).1 in
  let r := (for_loop E self g st).2 in
  let n := S (chunk_number st) in
  exists m,
    let cs := take m (yields g) in
    chunk_number st' = chunk_number st + m /\
    m <= length (yields g) /\
    total_rows st' = total_rows st + sum_list (len <$> successes E self n cs) /\
    total_nulls st' = total_nulls st + sum_list (isnull_sum_sum <$> successes E self n cs) /\
    header_written st' = header_written st || bool_decide (successes E self n cs <> []) /\
    f_out st' = f_out st ++ run_output E self n (header_written st) cs /\
    (r = None -> m = length (yields g) /\ gen_raises g = None) /\
    (forall e, r = Some e -> gen_raises g = Some e \/ is_Exception e = false).
Proof.
  revert st. induction g as [ev k IH|chunk k IH| |e]; intros st; simpl.
  - destruct (IH (add_log st ev)) as (m & H). exists m. exact H.
  - pose proof (loop_body_fields E self st chunk) as (Hn & Hr & Hz & Hh & Hf).
    pose proof (loop_body_result E self st chunk) as Hres.
    destruct (loop_body E self st chunk) as [st1 [e|]] eqn:Hb; simpl in *.
    + exists 1. simpl.
      destruct (batch_result E self (S (chunk_number st)) chunk) as [c|e'] eqn:Hbr;
        [discriminate|].
      destruct (is_Exception e') eqn:He'; [discriminate|]. injection Hres as ->.
      unfold succeeded in Hh. rewrite Hbr in Hh. simpl in *.
      rewrite Hn, Hr, Hz, Hh, Hf. rewrite app_nil_r.
      repeat split; try lia; try done.
      intros e0 [= <-]. right. exact He'.
    + destruct (IH st1) as (m & Hm1 & Hm2 & Hm3 & Hm4 & Hm5 & Hm6 & Hm7 & Hm8).
      exists (S m). simpl. rewrite Hn in *.
      unfold succeeded in *.
      destruct (batch_result E self (S (chunk_number st)) chunk) as [c|e'] eqn:Hbr; simpl in *.
      * rewrite Hm1, Hm3, Hm4, Hm5, Hm6, Hr, Hz, Hh, Hf.
        rewrite orb_true_r. simpl. rewrite <- !app_assoc.
        repeat split; try (unfold fmap; lia); try done.
        all: match goal with H : _ = None |- _ => destruct (Hm7 H) as [-> ?]; done end.
      * rewrite Hm1, Hm3, Hm4, Hm5, Hm6, Hr, Hz, Hh, Hf.
        rewrite orb_false_r. simpl. rewrite <- !app_assoc.
        repeat split; try (unfold fmap; lia); try done.
        all: match goal with H : _ = None |- _ => destruct (Hm7 H) as [-> ?]; done end.
  - exists 0. simpl. rewrite app_nil_r, orb_false_r. repeat split; try lia; try done.
  - exists 0. simpl. rewrite app_nil_r, orb_false_r. repeat split; try lia; try done.
    intros e0 [= <-]. auto.
Qed.

Lemma logged_errors_app l1 l2 :
  logged_errors (l1 ++ l2) = logged_errors l1 ++ logged_errors l2.
Proof. apply omap_app. Qed.

(** The errors in the log are the failures the handler caught, in order and
    with their batch numbers. *)
Lemma for_loop_errors E self g st :
  gen_logs_info g = true ->
  let st' := (for_loop E self g st).1 in
  exists m,
    chunk_number st' = chunk_number st + m /\
    logged_errors (log st') =
      logged_errors (log st)
        ++ filter (fun p : nat * exn => is_Exception p.2 = true)
             (failures E self (S (chunk_number st)) (take m (yields g))).
Proof.
  revert st. induction g as [ev k IH|chunk k IH| |e]; intros st Hinfo; simpl in *.
  - apply andb_true_iff in Hinfo as [Hev Hk].
    destruct (IH (add_log st ev) Hk) as (m & H1 & H2). exists m. split; [exact H1|].
    rewrite H2. simpl. rewrite logged_errors_app.
    destruct ev; simpl in *; try discriminate; rewrite app_nil_r; reflexivity.
  - pose proof (loop_body_fields E self st chunk) as (Hn & _).
    pose proof (loop_body_result E self st chunk) as Hres.
    pose proof (loop_body_log E self st chunk) as Hlog.
    destruct (loop_body E self st chunk) as [st1 [e|]] eqn:Hb; simpl in *.
    + exists 1. simpl. split; [lia|].
      destruct (batch_result E self (S (chunk_number st)) chunk) as [c|e'];
        [discriminate|].
      destruct (is_Exception e') eqn:He'; [discriminate|].
      rewrite Hlog, app_nil_r. simpl.
      rewrite filter_cons_False by (simpl; congruence).
      rewrite app_nil_r. reflexivity.
    + destruct (IH st1 Hinfo) as (m & H1 & H2). exists (S m).
      split; [lia|]. rewrite H2, Hlog, Hn, logged_errors_app, <- app_assoc. f_equal.
      simpl.
      destruct (batch_result E self (S (chunk_number st)) chunk) as [c|e']; simpl.
      * reflexivity.
      * destruct (is_Exception e') eqn:He'; [|discriminate].
        rewrite filter_cons_True by (simpl; assumption). reflexivity.
  - exists 0. simpl. rewrite app_nil_r. split; [lia|reflexivity].
  - exists 0. simpl. rewrite app_nil_r. split; [lia|reflexivity].
Qed.

Global Instance le_totals_preorder : PreOrder le_totals.
Proof.
  split.
  - intros s. unfold le_totals. lia.
  - intros s1 s2 s3. unfold le_totals. lia.
Qed.

Lemma loop_body_le_totals E self st chunk : le_totals st (loop_body E self st chunk).1.
Proof.
  pose proof (loop_body_fields E self st chunk) as (_ & Hr & Hz & _).
  unfold le_totals. simpl in *. lia.
Qed.

(** Every state the loop goes through has totals at least those it started
    from. *)
Lemma loop_trace_ge E self g st : Forall (le_totals st) (loop_trace E self g st).
Proof.
  revert st. induction g as [ev k IH|chunk k IH| |e]; intros st; simpl.
  - apply (IH (add_log st ev)).
  - pose proof (loop_body_le_totals E self st chunk) as Hle.
    destruct (loop_body E self st chunk) as [st1 [e|]]; simpl in *.
    + constructor; [exact Hle | constructor].
    + constructor; [exact Hle|].
      eapply Forall_impl; [apply IH|]. intros s Hs. simpl in Hs. etrans; eassumption.
  - constructor.
  - constructor.
Qed.

Lemma loop_trace_sorted E self g st : StronglySorted le_totals (loop_trace E self g st).
Proof.
  revert st. induction g as [ev k IH|chunk k IH| |e]; intros st; simpl.
  - apply IH.
  - destruct (loop_body E self st chunk) as [st1 [e|]]; simpl.
    + repeat constructor.
    + constructor; [apply IH | apply loop_trace_ge].
  - constructor.
  - constructor.
Qed.

(** The totals at the end of the loop are those of the last iteration. *)
Lemma loop_trace_last E self g st :
  let st' := (for_loop E self g st).1 in
  let s := default st (last (loop_trace E self g st)) in
  total_rows st' = total_rows s /\ total_nulls st' = total_nulls s /\
  length (loop_trace E self g st) + chunk_number st = chunk_number st'.
Proof.
  revert st. induction g as [ev k IH|chunk k IH| |e]; intros st; simpl.
  - specialize (IH (add_log st ev)). simpl in IH.
    destruct (last (loop_trace E self k (add_log st ev))); simpl in *; exact IH.
  - pose proof (loop_body_fields E self st chunk) as (Hn & _).
    destruct (loop_body E self st chunk) as [st1 [e|]]; simpl in *.
    + repeat split; lia.
    + specialize (IH st1). simpl in IH. rewrite last_cons.
      destruct (last (loop_trace E self k st1)); simpl in *;
        (repeat split; [apply IH | apply IH | lia]).
  - repeat split; reflexivity.
  - repeat split; reflexivity.
Qed.

(** ** [read_chunks] *)

Lemma enumerate_yield_yields i it : yields (enumerate_yield i it) = iter_items it.
Proof.
  revert i. induction it as [|a k IH|e]; intros i; simpl; [reflexivity| |reflexivity].
  rewrite IH. reflexivity.
Qed.

Lemma enumerate_yield_logs_info i it : gen_logs_info (enumerate_yield i it) = true.
Proof. revert i. induction it as [|a k IH|e]; intros i; simpl; auto. Qed.

Lemma read_chunks_logs_info E self : gen_logs_info (read_chunks E self) = true.
Proof.
  unfold read_chunks. destruct (detect_encoding E self); simpl; [|reflexivity].
  destruct (pd_read_csv _ _ _ _); simpl; [apply enumerate_yield_logs_info | reflexivity].
Qed.

(** ** [process] *)

Lemma process_open_fails E self old e :
  open_w E (output_file self) = Some e ->
  process E self old = (set_f_out (initial_state self) old, Some e).
Proof. unfold process. intros ->. reflexivity. Qed.

Lemma process_open_ok E self old :
  open_w E (output_file self) = None ->
  let lp := for_loop E self (read_chunks E self) (initial_state self) in
  let st' := (process E self old).1 in
  (process E self old).2 = lp.2 /\
  chunk_number st' = chunk_number lp.1 /\
  total_rows st' = total_rows lp.1 /\
  total_nulls st' = total_nulls lp.1 /\
  header_written st' = header_written lp.1 /\
  f_out st' = f_out lp.1 /\
  log st' = log lp.1 ++ (if lp.2 is None then summary self lp.1 else []).
Proof.
  unfold process. intros ->.
  destruct (for_loop E self (read_chunks E self) (initial_state self)) as [st [e|]]; simpl.
  - rewrite app_nil_r. repeat split; reflexivity.
  - repeat split; reflexivity.
Qed.

(** The run in terms of the batches it got to. *)
Lemma process_run E self old :
  open_w E (output_file self) = None ->
  let g := read_chunks E self in
  let st' := (process E self old).1 in
  let cs := attempted g st' in
  chunk_number st' <= length (yields g) /\
  total_rows st' = sum_list (len <$> successes E self 1 cs) /\
  total_nulls st' = sum_list (isnull_sum_sum <$> successes E self 1 cs) /\
  header_written st' = bool_decide (successes E self 1 cs <> []) /\
  f_out st' = run_output E self 1 false cs /\
  logged_errors (log st') =
    filter (fun p : nat * exn => is_Exception p.2 = true) (failures E self 1 cs) /\
  ((process E self old).2 = None -> cs = yields g /\ gen_raises g = None) /\
  (forall e, (process E self old).2 = Some e -> gen_raises g = Some e \/ is_Exception e = false).
Proof.
  intros Hopen. simpl.
  destruct (process_open_ok E self old Hopen) as (Hr & Hn & Hrows & Hnulls & Hh & Hf & Hlog).
  destruct (for_loop_run E self (read_chunks E self) (initial_state self))
    as (m & H1 & H2 & H3 & H4 & H5 & H6 & H7 & H8).
  destruct (for_loop_errors E self (read_chunks E self) (initial_state self)
              (read_chunks_logs_info E self)) as (m' & H1' & H9).
  simpl in *. assert (m' = m) as -> by lia.
  unfold attempted. rewrite Hn, H1, Hr, Hrows, Hnulls, Hh, Hf.
  split_and!; try assumption.
  - rewrite Hlog, logged_errors_app, H9.
    destruct (for_loop E self (read_chunks E self) (initial_state self)).2; simpl;
      rewrite app_nil_r; reflexivity.
  - intros Hnone. destruct (H7 Hnone) as [-> Hg]. split; [apply firstn_all | exact Hg].
Qed.

(** C3: over the per-batch loop [total_rows] and [total_nulls] never
    decrease, and when the run ends [total_rows] is the sum of the row counts
    and [total_nulls] the sum of the null-cell counts of exactly the batches
    that were processed successfully; failed batches contribute nothing. A
    run that completes got to every batch the reader yielded and reports
    these totals in its summary. *)
Theorem totals_monotone_and_exact E self old :
  let g := read_chunks E self in
  let st' := (process E self old).1 in
  let tr := loop_trace E self g (initial_state self) in
  (total_rows st' = sum_list (len <$> successes E self 1 (attempted g st')) /\
   total_nulls st' = sum_list (isnull_sum_sum <$> successes E self 1 (attempted g st'))) /\
  (open_w E (output_file self) = None ->
   StronglySorted le_totals (initial_state self :: tr) /\
   length tr = chunk_number st' /\
   total_rows st' = total_rows (default (initial_state self) (last tr)) /\
   total_nulls st' = total_nulls (default (initial_state self) (last tr))) /\
  ((process E self old).2 = None ->
   attempted g st' = yields g /\
   exists l, log st' =
     l ++ [ Finished (output_file self); TotalChunks (length (yields g));
            TotalRows (sum_list (len <$> successes E self 1 (yields g)));
            TotalNulls (sum_list (isnull_sum_sum <$> successes E self 1 (yields g)));
            TotalTime ]).
Proof.
  simpl. destruct (open_w E (output_file self)) as [e|] eqn:Hopen.
  - rewrite (process_open_fails E self old e Hopen). simpl.
    split; [split; reflexivity|]. split; discriminate.
  - pose proof (process_run E self old Hopen) as (Hle & Hrows & Hnulls & _ & _ & _ & Hend & _).
    pose proof (process_open_ok E self old Hopen) as (Hr & Hn & Hrows' & Hnulls' & _ & _ & Hlog).
    pose proof (loop_trace_last E self (read_chunks E self) (initial_state self))
      as (Hl1 & Hl2 & Hl3).
    simpl in *. split_and!; try assumption.
    + intros _. split_and!.
      * constructor; [apply loop_trace_sorted | apply loop_trace_ge].
      * lia.
      * congruence.
      * congruence.
    + intros Hnone. destruct (Hend Hnone) as [Hall _]. split; [exact Hall|].
      rewrite Hall in Hrows, Hnulls. rewrite Hr in Hnone. rewrite Hnone in Hlog.
      exists (log (for_loop E self (read_chunks E self) (initial_state self)).1).
      rewrite Hlog. unfold summary. rewrite <- Hrows', <- Hnulls', <- Hn, <- Hrows, <- Hnulls.
      do 3 f_equal.
      unfold attempted in Hall. apply (f_equal length) in Hall.
      rewrite length_take in Hall. f_equal. lia.
Qed.

Lemma totals_monotone_and_exact_witness :
  open_w (example_env example_table no_fault) (output_file (example_self 1 [dropna])) = None /\
  (process (example_env example_table no_fault) (example_self 1 [dropna]) []).2 = None /\
  total_rows (process (example_env example_table no_fault) (example_self 1 [dropna]) []).1 = 2.
Proof.
  split; [reflexivity|]. split; [reflexivity|].
  exact (proj1 (proj1 (totals_monotone_and_exact
                         (example_env example_table no_fault) (example_self 1 [dropna]) []))).
Defined.

(** ** Failures inside the [try] block *)

Lemma body_exception_batch_result E self st chunk e :
  body_exception E self st chunk = Some e <->
  batch_result E self (S (chunk_number st)) chunk = Raise e.
Proof.
  unfold body_exception.
  destruct (batch_result E self (S (chunk_number st)) chunk) as [c|e']; split;
    intros H; try discriminate; congruence.
Qed.

Lemma batch_output_prefix E self n hw chunk chunk' :
  apply_processing_funcs self chunk = Ok chunk' ->
  exists k, batch_output E self n hw chunk = take k (csv_lines chunk' (negb hw)).
Proof.
  unfold batch_output. intros ->.
  destruct (to_csv_fault E n chunk') as [[k e]|].
  - exists k. reflexivity.
  - exists (length (csv_lines chunk' (negb hw))). rewrite firstn_all. reflexivity.
Qed.

(** An exception that leaves the loop ended the generator or is not an
    [Exception]. *)
Lemma process_propagates E self old e :
  (process E self old).2 = Some e ->
  open_w E (output_file self) = Some e \/
  gen_raises (read_chunks E self) = Some e \/
  is_Exception e = false.
Proof.
  destruct (open_w E (output_file self)) as [e'|] eqn:Hopen.
  - rewrite (process_open_fails E self old e' Hopen). simpl. intros [= ->]. auto.
  - intros H. right.
    pose proof (process_run E self old Hopen) as (_ & _ & _ & _ & _ & _ & _ & Hp).
    apply Hp, H.
Qed.

(** C1 does not hold as stated: a write that raises after the header and one
    row left that row in the file, and an exception that is not an
    [Exception] ([sys.exit] in a transform) leaves the loop. *)
Lemma batch_isolation_counterexample :
  ~ batch_isolation_claim (example_env example_table (fault_at 1 2)) (example_self 2 [])
      (initial_state (example_self 2 [])) example_chunk /\
  ~ batch_isolation_claim (example_env example_table no_fault) (example_self 2 [sys_exit])
      (initial_state (example_self 2 [sys_exit])) example_chunk.
Proof.
  split; intros H.
  - destruct (H encode_error eq_refl) as (_ & _ & _ & _ & Hout). vm_compute in Hout. discriminate.
  - destruct (H (Exn BaseExceptionOnly "SystemExit: 1") eq_refl) as (Hr & _).
    vm_compute in Hr. discriminate.
Qed.

(** C1, amended: when the [try] block of a batch raises an instance of
    [Exception], nothing leaves the loop and the loop goes on with the next
    batch of the generator, the error is logged with the batch number, the
    totals and the header flag are unchanged, and the file gains exactly what
    the write emitted before raising: nothing when the transforms raised, a
    prefix of the batch's lines when the write raised. An [Exception] that
    leaves [process] comes from opening the output file or from the
    generator (opening or parsing the input), never from a batch. *)
Theorem caught_batch_failure_is_isolated :
  (forall E self st chunk e,
      body_exception E self st chunk = Some e ->
      is_Exception e = true ->
      let st' := (loop_body E self st chunk).1 in
      (loop_body E self st chunk).2 = None /\
      (forall k, for_loop E self (GYield chunk k) st = for_loop E self k st') /\
      log st' = log st ++ [ChunkError (S (chunk_number st)) e] /\
      total_rows st' = total_rows st /\
      total_nulls st' = total_nulls st /\
      header_written st' = header_written st /\
      f_out st' = f_out st ++ batch_output E self (S (chunk_number st)) (header_written st) chunk /\
      (apply_processing_funcs self chunk = Raise e -> f_out st' = f_out st) /\
      (forall chunk', apply_processing_funcs self chunk = Ok chunk' ->
         exists k, f_out st' = f_out st ++ take k (csv_lines chunk' (negb (header_written st))))) /\
  (forall E self old e,
      (process E self old).2 = Some e ->
      is_Exception e = true ->
      open_w E (output_file self) = Some e \/ gen_raises (read_chunks E self) = Some e).
Proof.
  split.
  - intros E self st chunk e Hexn He. simpl.
    apply body_exception_batch_result in Hexn.
    pose proof (loop_body_fields E self st chunk) as (_ & Hr & Hz & Hh & Hf).
    pose proof (loop_body_result E self st chunk) as Hres.
    pose proof (loop_body_log E self st chunk) as Hlog.
    simpl in *. unfold succeeded in Hh. rewrite Hexn in *. rewrite He in *.
    simpl in *. rewrite orb_false_r in Hh.
    split_and!; try assumption; try lia.
    + intros k. simpl. destruct (loop_body E self st chunk) as [st1 r]. simpl in *.
      rewrite Hres. reflexivity.
    + intros Ht. rewrite Hf, (batch_output_transform_raise _ _ _ _ _ _ Ht).
      apply app_nil_r.
    + intros chunk' Ht.
      destruct (batch_output_prefix E self (S (chunk_number st)) (header_written st)
                  chunk chunk' Ht) as [k Hk].
      exists k. rewrite Hf, Hk. reflexivity.
  - intros E self old e Hp He.
    destruct (process_propagates E self old e Hp) as [H|[H|H]]; auto. congruence.
Qed.

Lemma caught_batch_failure_is_isolated_witness :
  body_exception (example_env example_table (fault_at 1 2)) (example_self 2 [])
    (initial_state (example_self 2 [])) example_chunk = Some encode_error /\
  is_Exception encode_error = true /\
  (loop_body (example_env example_table (fault_at 1 2)) (example_self 2 [])
     (initial_state (example_self 2 [])) example_chunk).2 = None.
Proof.
  split; [reflexivity|]. split; [reflexivity|].
  exact (proj1 (proj1 caught_batch_failure_is_isolated
                  (example_env example_table (fault_at 1 2)) (example_self 2 [])
                  (initial_state (example_self 2 [])) example_chunk encode_error
                  eq_refl eq_refl)).
Defined.

(** ** The header *)

Lemma csv_lines_no_header_data df : Forall (fun l => is_data l = true) (csv_lines df false).
Proof. unfold csv_lines. simpl. apply Forall_fmap, Forall_true. intros r. reflexivity. Qed.

Lemma batch_output_data E self n chunk :
  Forall (fun l => is_data l = true) (batch_output E self n true chunk).
Proof.
  unfold batch_output. destruct (apply_processing_funcs self chunk) as [c|e]; [|constructor].
  destruct (to_csv_fault E n c) as [[k e]|]; simpl.
  - apply Forall_take, csv_lines_no_header_data.
  - apply csv_lines_no_header_data.
Qed.

(** Once the flag is set, only data lines are written. *)
Lemma run_output_data E self n chunks :
  Forall (fun l => is_data l = true) (run_output E self n true chunks).
Proof.
  revert n. induction chunks as [|chunk chunks IH]; intros n; simpl; [constructor|].
  apply Forall_app. split; [apply batch_output_data | apply IH].
Qed.

Lemma successes_nil_iff E self n chunk chunks :
  successes E self n (chunk :: chunks) = [] <->
  succeeded E self n chunk = false /\ successes E self (S n) chunks = [].
Proof.
  unfold succeeded. simpl. destruct (batch_result E self n chunk); split.
  - discriminate.
  - intros [? _]. discriminate.
  - auto.
  - intros [_ H]. exact H.
Qed.

(** With write failures that leave nothing behind, the output before the
    flag is set is empty, and the first success starts it with the header. *)
Lemma run_output_clean E self n chunks :
  clean_write_failures E ->
  if bool_decide (successes E self n chunks <> [])
  then one_header_first (run_output E self n false chunks)
  else run_output E self n false chunks = [].
Proof.
  intros Hclean. revert n. induction chunks as [|chunk chunks IH]; intros n; simpl.
  - reflexivity.
  - unfold succeeded.
    destruct (batch_result E self n chunk) as [c|e] eqn:Hbr; simpl.
    + rewrite (batch_output_success _ _ _ _ _ _ Hbr). simpl.
      exists (columns c), ((DataLine <$> rows c) ++ run_output E self (S n) true chunks).
      split; [reflexivity|]. apply Forall_app. split; [|apply run_output_data].
      apply (csv_lines_no_header_data c).
    + rewrite (batch_output_clean_failure _ _ _ _ _ _ Hclean Hbr). simpl. apply IH.
Qed.

Lemma loop_trace_header E self g st :
  header_written st = true ->
  Forall (fun s => header_written s = true) (loop_trace E self g st).
Proof.
  revert st. induction g as [ev k IH|chunk k IH| |e]; intros st Hst; simpl.
  - apply IH. exact Hst.
  - pose proof (loop_body_fields E self st chunk) as (_ & _ & _ & Hh & _).
    rewrite Hst in Hh.
    destruct (loop_body E self st chunk) as [st1 [e|]]; simpl in *.
    + repeat constructor. exact Hh.
    + constructor; [exact Hh | apply IH, Hh].
  - constructor.
  - constructor.
Qed.

(** C2 does not hold as stated: when every batch fails in the transforms the
    output has no header line at all, and after a write that raised having
    emitted the header, the next successful batch writes a second header. *)
Lemma one_header_counterexample :
  ~ one_header_first
      (f_out (process (example_env example_table no_fault)
                (example_self 2 [always_fail]) []).1) /\
  ~ one_header_first
      (f_out (process (example_env example_table (fault_at 1 2)) (example_self 2 []) []).1).
Proof.
  split; intros (cols & body & Heq & Hdata); vm_compute in Heq.
  - discriminate.
  - injection Heq as _ <-. inversion Hdata as [|? ? _ Hrest]. inversion Hrest as [|? ? Hh _].
    discriminate.
Qed.

(** C2, amended: in every run, once [header_written] is true it stays true
    for the rest of the loop and every line written from then on is a data
    line. In a run where no failing write leaves output behind, the output
    file has exactly one header line, as its first line, when at least one
    batch was processed successfully, and is empty otherwise. *)
Theorem header_written_once :
  (forall E self g st,
      header_written st = true ->
      let st' := (for_loop E self g st).1 in
      header_written st' = true /\
      Forall (fun s => header_written s = true) (loop_trace E self g st) /\
      exists ls, f_out st' = f_out st ++ ls /\ Forall (fun l => is_data l = true) ls) /\
  (forall E self old,
      open_w E (output_file self) = None ->
      clean_write_failures E ->
      let st' := (process E self old).1 in
      header_written st' =
        bool_decide (successes E self 1 (attempted (read_chunks E self) st') <> []) /\
      if header_written st' then one_header_first (f_out st') else f_out st' = []).
Proof.
  split.
  - intros E self g st Hst. simpl.
    destruct (for_loop_run E self g st) as (m & _ & _ & _ & _ & Hh & Hf & _).
    simpl in *. rewrite Hst in *. split_and!.
    + exact Hh.
    + apply loop_trace_header, Hst.
    + eexists. split; [exact Hf | apply run_output_data].
  - intros E self old Hopen Hclean. simpl.
    pose proof (process_run E self old Hopen) as (_ & _ & _ & Hh & Hf & _).
    simpl in *. split; [exact Hh|]. rewrite Hh, Hf.
    apply run_output_clean, Hclean.
Qed.

Lemma no_fault_clean t : clean_write_failures (example_env t no_fault).
Proof. intros n df k e H. discriminate. Qed.

Lemma header_written_once_witness :
  open_w (example_env example_table no_fault) (output_file (example_self 2 [])) = None /\
  clean_write_failures (example_env example_table no_fault) /\
  one_header_first (f_out (process (example_env example_table no_fault) (example_self 2 []) []).1).
Proof.
  split; [reflexivity|]. split; [apply no_fault_clean|].
  exact (proj2 (proj2 header_written_once
                  (example_env example_table no_fault) (example_self 2 []) []
                  eq_refl (no_fault_clean example_table))).
Defined.

(** ** The header and failed batches *)

Lemma run_output_failed E self n chunks :
  successes E self n chunks = [] ->
  run_output E self n false chunks = failed_output E self n chunks.
Proof.
  revert n. induction chunks as [|chunk chunks IH]; intros n; [reflexivity|].
  intros H. apply successes_nil_iff in H as [Hs Hrest]. simpl. rewrite Hs. simpl.
  f_equal. apply IH, Hrest.
Qed.

Lemma run_output_after_failures E self n failed rest :
  successes E self n failed = [] ->
  run_output E self n false (failed ++ rest) =
  failed_output E self n failed ++ run_output E self (n + length failed) false rest.
Proof.
  revert n. induction failed as [|chunk failed IH]; intros n H; simpl.
  - rewrite Nat.add_0_r. reflexivity.
  - apply successes_nil_iff in H as [Hs Hrest]. rewrite Hs. simpl.
    rewrite <- app_assoc. f_equal. rewrite (IH (S n) Hrest).
    replace (S n + length failed) with (n + S (length failed)) by lia. reflexivity.
Qed.

Lemma batch_output_nonempty E self n hw chunk :
  batch_output E self n hw chunk <> [] ->
  exists chunk', apply_processing_funcs self chunk = Ok chunk'.
Proof.
  unfold batch_output. destruct (apply_processing_funcs self chunk) as [c|e]; [eauto|].
  intros H. exfalso. apply H. reflexivity.
Qed.

Lemma run_output_nonempty E self n hw chunks :
  run_output E self n hw chunks <> [] ->
  exists chunk chunk', chunk ∈ chunks /\ apply_processing_funcs self chunk = Ok chunk'.
Proof.
  revert n hw. induction chunks as [|chunk chunks IH]; intros n hw; simpl.
  - intros H. exfalso. apply H. reflexivity.
  - intros H.
    destruct (batch_output E self n hw chunk) as [|l ls] eqn:Hb.
    + simpl in H. destruct (IH _ _ H) as (c & c' & Hin & Hc).
      exists c, c'. split; [right; exact Hin | exact Hc].
    + destruct (batch_output_nonempty E self n hw chunk) as [c' Hc'].
      { rewrite Hb. discriminate. }
      exists chunk, c'. split; [left | exact Hc'].
Qed.

Lemma failed_output_transform_stage E self n chunks :
  Forall (fun chunk => exists e, apply_processing_funcs self chunk = Raise e) chunks ->
  failed_output E self n chunks = [].
Proof.
  intros H. revert n. induction H as [|chunk chunks [e He] _ IH]; intros n; simpl.
  - reflexivity.
  - rewrite (batch_output_transform_raise _ _ _ _ _ _ He). apply IH.
Qed.

(** C10: [header_written] becomes true only when a batch has been written
    successfully, so after initial failed batches the header goes out with
    the first successful batch; when no batch succeeds the output file holds
    what the failed writes emitted before raising, which is nothing when the
    failures are in the transforms; the output is non-empty only if a write
    was attempted. *)
Theorem header_with_first_successful_batch :
  (forall E self st chunk,
      let n := S (chunk_number st) in
      let st' := (loop_body E self st chunk).1 in
      header_written st' = header_written st || succeeded E self n chunk /\
      (forall chunk', header_written st = false -> batch_result E self n chunk = Ok chunk' ->
         f_out st' = f_out st ++ HeaderLine (columns chunk') :: (DataLine <$> rows chunk'))) /\
  (forall E self old,
      open_w E (output_file self) = None ->
      let st' := (process E self old).1 in
      let cs := attempted (read_chunks E self) st' in
      header_written st' = bool_decide (successes E self 1 cs <> []) /\
      (forall failed chunk rest chunk',
          cs = failed ++ chunk :: rest ->
          successes E self 1 failed = [] ->
          batch_result E self (S (length failed)) chunk = Ok chunk' ->
          exists tail,
            f_out st' =
              failed_output E self 1 failed
                ++ HeaderLine (columns chunk') :: (DataLine <$> rows chunk') ++ tail /\
            Forall (fun l => is_data l = true) tail) /\
      (successes E self 1 cs = [] -> f_out st' = failed_output E self 1 cs) /\
      (Forall (fun chunk => exists e, apply_processing_funcs self chunk = Raise e) cs ->
       f_out st' = []) /\
      (f_out st' <> [] ->
       exists chunk chunk', chunk ∈ cs /\ apply_processing_funcs self chunk = Ok chunk')).
Proof.
  split.
  - intros E self st chunk. simpl.
    pose proof (loop_body_fields E self st chunk) as (_ & _ & _ & Hh & Hf). simpl in *.
    split; [exact Hh|]. intros chunk' Hst Hbr.
    rewrite Hf, Hst, (batch_output_success _ _ _ _ _ _ Hbr). reflexivity.
  - intros E self old Hopen. simpl.
    pose proof (process_run E self old Hopen) as (_ & _ & _ & Hh & Hf & _). simpl in *.
    split_and!.
    + exact Hh.
    + intros failed chunk rest chunk' Hcs Hfailed Hbr.
      rewrite Hf, Hcs, (run_output_after_failures _ _ _ _ _ Hfailed). simpl.
      unfold succeeded. rewrite Hbr, (batch_output_success _ _ _ _ _ _ Hbr). simpl.
      eexists. split; [reflexivity | apply run_output_data].
    + intros Hnone. rewrite Hf. apply run_output_failed, Hnone.
    + intros Hall. rewrite Hf.
      assert (successes E self 1
                (attempted (read_chunks E self) (process E self old).1) = []) as Hnone.
      { clear Hf Hh. generalize 1.
        induction Hall as [|chunk chunks [e He] _ IH]; intros n; simpl; [reflexivity|].
        unfold batch_result. rewrite He. simpl. apply IH. }
      rewrite (run_output_failed _ _ _ _ Hnone). apply failed_output_transform_stage, Hall.
    + intros Hne. rewrite Hf in Hne. apply (run_output_nonempty _ _ _ _ _ Hne).
Qed.

Lemma header_with_first_successful_batch_witness :
  open_w (example_env example_table (fault_at 1 0)) (output_file (example_self 2 [])) = None /\
  header_written (process (example_env example_table (fault_at 1 0)) (example_self 2 []) []).1
    = true /\
  f_out (process (example_env example_table (fault_at 1 0)) (example_self 2 []) []).1
    = [HeaderLine ["id"; "name"]; DataLine [Some "3"; Some "bia"]].
Proof.
  split; [reflexivity|].
  pose proof (proj2 header_with_first_successful_batch
                (example_env example_table (fault_at 1 0)) (example_self 2 []) [] eq_refl)
    as (Hh & _).
  split; [exact Hh | reflexivity].
Defined.

(** ** A pipeline that always fails *)

Lemma for_loop_propagated E self g st e :
  (for_loop E self g st).2 = Some e ->
  gen_raises g = Some e \/
  (is_Exception e = false /\
   exists n chunk, chunk ∈ yields g /\ batch_result E self n chunk = Raise e).
Proof.
  revert st. induction g as [ev k IH|chunk k IH| |e']; intros st; simpl.
  - apply IH.
  - pose proof (loop_body_result E self st chunk) as Hres.
    destruct (loop_body E self st chunk) as [st1 [e'|]]; simpl in *.
    + intros [= ->]. right.
      destruct (batch_result E self (S (chunk_number st)) chunk) as [c|e'] eqn:Hbr;
        [discriminate|].
      destruct (is_Exception e') eqn:He'; [discriminate|]. injection Hres as ->.
      split; [exact He'|]. exists (S (chunk_number st)), chunk. split; [left | exact Hbr].
    + intros H. destruct (IH st1 H) as [Hg|(He & n & c & Hin & Hbr)]; [left; exact Hg|].
      right. split; [exact He|]. exists n, c. split; [right; exact Hin | exact Hbr].
  - discriminate.
  - intros [= ->]. left. reflexivity.
Qed.

Section AlwaysFailing.
Variables (E : env) (self : ChunkProcessor).
Hypothesis transforms_fail :
  forall chunk, exists e, apply_processing_funcs self chunk = Raise e /\ is_Exception e = true.

Lemma always_failing_batch n chunk :
  exists e, batch_result E self n chunk = Raise e /\ is_Exception e = true.
Proof using transforms_fail.
  destruct (transforms_fail chunk) as (e & He & Hc). exists e.
  unfold batch_result. rewrite He. auto.
Qed.

Lemma always_failing_successes n chunks : successes E self n chunks = [].
Proof using transforms_fail.
  revert n. induction chunks as [|chunk chunks IH]; intros n; simpl; [reflexivity|].
  destruct (always_failing_batch n chunk) as (e & -> & _). apply IH.
Qed.

Lemma always_failing_failures n chunks :
  (failures E self n chunks).*1 = seq n (length chunks) /\
  filter (fun p : nat * exn => is_Exception p.2 = true) (failures E self n chunks)
  = failures E self n chunks.
Proof using transforms_fail.
  revert n. induction chunks as [|chunk chunks IH]; intros n; simpl; [auto|].
  destruct (always_failing_batch n chunk) as (e & -> & He). simpl.
  destruct (IH (S n)) as [Hs Hf]. split.
  - f_equal. exact Hs.
  - rewrite filter_cons_True by exact He. rewrite Hf. reflexivity.
Qed.

Lemma always_failing_stage chunks :
  Forall (fun chunk => exists e, apply_processing_funcs self chunk = Raise e) chunks.
Proof using transforms_fail.
  apply Forall_forall. intros chunk _.
  destruct (transforms_fail chunk) as (e & He & _). eauto.
Qed.
End AlwaysFailing.

(** C4 does not hold as stated: with a transform that raises on every batch
    the run completes with [total_rows = 0], but [to_csv] is never called and
    the output file has no header line: it is empty. *)
Lemma always_failing_counterexample :
  (forall chunk, apply_processing_funcs (example_self 2 [always_fail]) chunk
                 = Raise (Exn ExceptionClass "ValueError: bad batch")) /\
  (process (example_env example_table no_fault) (example_self 2 [always_fail]) []).2 = None /\
  ~ (exists cols,
        f_out (process (example_env example_table no_fault)
                 (example_self 2 [always_fail]) []).1 = [HeaderLine cols]).
Proof.
  split; [reflexivity|]. split; [reflexivity|].
  intros [cols H]. vm_compute in H. discriminate.
Qed.

(** C4, amended: if the transforms raise an [Exception] on every batch, and
    the output file opens and the reader does not fail, then the run
    completes normally, exactly one error is logged per batch with its batch
    number, the final [total_rows] and [total_nulls] are 0, the header flag
    is still false and the output file is empty: it has no data line and no
    header line either. *)
Theorem always_failing_run_completes E self old :
  open_w E (output_file self) = None ->
  gen_raises (read_chunks E self) = None ->
  (forall chunk, exists e, apply_processing_funcs self chunk = Raise e /\ is_Exception e = true) ->
  let st' := (process E self old).1 in
  (process E self old).2 = None /\
  chunk_number st' = length (yields (read_chunks E self)) /\
  (logged_errors (log st')).*1 = seq 1 (length (yields (read_chunks E self))) /\
  total_rows st' = 0 /\
  total_nulls st' = 0 /\
  header_written st' = false /\
  f_out st' = [].
Proof.
  intros Hopen Hgen Hfail. simpl.
  assert ((process E self old).2 = None) as Hnone.
  { destruct (process_open_ok E self old Hopen) as (Hr & _). rewrite Hr.
    destruct (for_loop E self (read_chunks E self) (initial_state self)).2 as [e|] eqn:Hp;
      [|reflexivity].
    destruct (for_loop_propagated _ _ _ _ _ Hp) as [Hg|(He & n & c & _ & Hbr)].
    - congruence.
    - destruct (always_failing_batch E self Hfail n c) as (e' & He' & Hc). congruence. }
  pose proof (process_run E self old Hopen)
    as (_ & Hrows & Hnulls & Hh & Hf & Hlog & Hend & _).
  simpl in *. destruct (Hend Hnone) as [Hall _]. rewrite Hall in *.
  rewrite (always_failing_successes E self Hfail) in *.
  destruct (always_failing_failures E self Hfail 1 (yields (read_chunks E self))) as [Hseq Hfilter].
  split_and!; try assumption.
  - unfold attempted in Hall. apply (f_equal length) in Hall. rewrite length_take in Hall.
    pose proof (process_run E self old Hopen) as (Hle & _). simpl in Hle. lia.
  - rewrite Hlog, Hfilter. exact Hseq.
  - rewrite Hf, run_output_failed by apply (always_failing_successes E self Hfail).
    apply failed_output_transform_stage, always_failing_stage, Hfail.
Qed.

Lemma always_failing_run_completes_witness :
  open_w (example_env example_table no_fault) (output_file (example_self 2 [always_fail])) = None /\
  gen_raises (read_chunks (example_env example_table no_fault) (example_self 2 [always_fail]))
    = None /\
  (forall chunk, exists e,
      apply_processing_funcs (example_self 2 [always_fail]) chunk = Raise e /\
      is_Exception e = true) /\
  f_out (process (example_env example_table no_fault) (example_self 2 [always_fail]) []).1 = [].
Proof.
  assert (forall chunk, exists e,
             apply_processing_funcs (example_self 2 [always_fail]) chunk = Raise e /\
             is_Exception e = true) as Hfail.
  { intros chunk. eexists. split; reflexivity. }
  split; [reflexivity|]. split; [reflexivity|]. split; [exact Hfail|].
  apply (always_failing_run_completes
           (example_env example_table no_fault) (example_self 2 [always_fail]) []
           eq_refl eq_refl Hfail).
Defined.

(** ** The chunked reader *)

Section Chunking.
Variables (cols : list string) (c : nat).
Hypothesis c_pos : 1 <= c.

(** After the first read the reader behaves the same on a non-empty rest. *)
Lemma TextFileReader_first_nonempty fuel r rs :
  TextFileReader fuel cols c true (r :: rs) = TextFileReader fuel cols c false (r :: rs).
Proof. destruct fuel; reflexivity. Qed.

(** The rows of the chunks, put end to end, are the rows that remained:
    none is skipped, duplicated or moved. *)
Lemma TextFileReader_concat fuel remaining :
  length remaining < fuel ->
  concat (rows <$> iter_items (TextFileReader fuel cols c false remaining)) = remaining.
Proof using c_pos.
  revert remaining. induction fuel as [|fuel IH]; intros remaining Hfuel; [lia|].
  destruct remaining as [|r rs]; [reflexivity|].
  cbn [TextFileReader iter_items fmap list_fmap concat rows].
  rewrite IH.
  - apply take_drop.
  - rewrite length_drop. simpl in *. lia.
Qed.

Lemma TextFileReader_columns fuel first remaining :
  Forall (fun df => columns df = cols)
    (iter_items (TextFileReader fuel cols c first remaining)).
Proof.
  revert first remaining. induction fuel as [|fuel IH]; intros first remaining; simpl.
  - constructor.
  - destruct remaining as [|r rs].
    + destruct first; simpl; [constructor; [reflexivity | apply IH] | constructor].
    + simpl. constructor; [reflexivity | apply IH].
Qed.

(** Chunk number [i] (from 0) holds rows [i * c] to [(i + 1) * c - 1]. *)
Lemma TextFileReader_lookup fuel remaining i :
  length remaining < fuel ->
  iter_items (TextFileReader fuel cols c false remaining) !! i =
  if decide (i * c < length remaining)
  then Some {| columns := cols; rows := take c (drop (i * c) remaining) |}
  else None.
Proof using c_pos.
  revert remaining i. induction fuel as [|fuel IH]; intros remaining i Hfuel; [lia|].
  destruct remaining as [|r rs].
  - cbn [TextFileReader iter_items]. rewrite lookup_nil.
    destruct (decide (i * c < length (@nil row))) as [H|H]; [simpl in H; lia | reflexivity].
  - cbn [TextFileReader iter_items]. destruct i as [|i].
    + rewrite decide_True by (simpl; lia). reflexivity.
    + rewrite lookup_cons_ne_0 by lia. cbn [pred].
      rewrite IH by (rewrite length_drop; simpl in *; lia).
      rewrite length_drop, drop_drop.
      replace (c + i * c) with (S i * c) by lia.
      destruct (decide (i * c < length (r :: rs) - c)) as [H1|H1];
        destruct (decide (S i * c < length (r :: rs))) as [H2|H2];
        try reflexivity; exfalso; lia.
Qed.

Lemma TextFileReader_length fuel remaining :
  length remaining < fuel ->
  length (iter_items (TextFileReader fuel cols c false remaining))
  = ceil_div (length remaining) c.
Proof using c_pos.
  intros Hfuel.
  set (l := iter_items (TextFileReader fuel cols c false remaining)).
  assert (forall i, i < length l <-> i * c < length remaining) as Hlt.
  { intros i. rewrite <- lookup_lt_is_Some. unfold l.
    rewrite TextFileReader_lookup by exact Hfuel.
    destruct (decide (i * c < length remaining)) as [H|H].
    - split; [intros _; exact H | intros _; eexists; reflexivity].
    - split; [intros [? ?]; discriminate | intros H'; contradiction]. }
  unfold ceil_div.
  assert (~ length l * c < length remaining) as Hub by (rewrite <- Hlt; lia).
  apply Nat.le_antisymm.
  - destruct (length l) as [|n] eqn:Hn; [lia|].
    assert (n * c < length remaining) as Hn' by (apply Hlt; lia).
    apply Nat.div_le_lower_bound; nia.
  - apply Nat.lt_succ_r, Nat.Div0.div_lt_upper_bound. nia.
Qed.
End Chunking.

Lemma TextFileReader_sizes cols c fuel remaining :
  1 <= c -> length remaining < fuel ->
  let l := iter_items (TextFileReader fuel cols c false remaining) in
  let R := length remaining in
  (forall i df, l !! i = Some df -> rows df = take c (drop (i * c) remaining)) /\
  (forall i df, l !! i = Some df -> S i < length l -> len df = c) /\
  (forall df, last l = Some df -> len df = if R mod c =? 0 then c else R mod c).
Proof.
  intros Hc Hfuel l R.
  assert (forall i df, l !! i = Some df ->
            i * c < R /\ rows df = take c (drop (i * c) remaining)) as Hlookup.
  { intros i df. unfold l. rewrite (TextFileReader_lookup cols c Hc) by exact Hfuel.
    destruct (decide (i * c < length remaining)) as [H|H]; [|discriminate].
    intros [= <-]. split; [exact H | reflexivity]. }
  assert (forall i, i < length l <-> i * c < R) as Hlt.
  { intros i. rewrite <- lookup_lt_is_Some. unfold l.
    rewrite (TextFileReader_lookup cols c Hc) by exact Hfuel.
    destruct (decide (i * c < length remaining)) as [H|H].
    - split; [intros _; exact H | intros _; eexists; reflexivity].
    - split; [intros [? ?]; discriminate | intros H'; contradiction]. }
  split_and!.
  - intros i df H. apply Hlookup, H.
  - intros i df H Hnext. destruct (Hlookup i df H) as [_ Hrows].
    unfold len. rewrite Hrows, length_take, length_drop.
    apply Hlt in Hnext. fold R. nia.
  - intros df Hlast. rewrite last_lookup in Hlast.
    destruct (Hlookup _ df Hlast) as [Hi Hrows].
    assert (pred (length l) < length l) as Hpos by (apply lookup_lt_Some in Hlast; exact Hlast).
    assert (~ length l * c < R) as Hub by (rewrite <- Hlt; lia).
    unfold len. rewrite Hrows, length_take, length_drop. fold R.
    pose proof (Nat.div_mod_eq R c) as Hdm.
    pose proof (Nat.mod_upper_bound R c ltac:(lia)) as Hmod.
    destruct (length l) as [|n]; [lia|]. simpl in *.
    destruct (Nat.eqb_spec (R mod c) 0) as [H0|H0].
    + rewrite H0, Nat.add_0_r in Hdm. set (q := R `div` c) in *. clearbody q.
      assert (n < q) as Hlo by (apply (Nat.mul_lt_mono_pos_r c); lia).
      assert (q <= S n) as Hhi by (apply (Nat.mul_le_mono_pos_r _ _ c); lia).
      assert (q = S n) as -> by lia. lia.
    + set (q := R `div` c) in *. set (r := R `mod` c) in *. clearbody q r.
      assert (n <= q) as Hlo.
      { apply Nat.lt_succ_r, (Nat.mul_lt_mono_pos_r c); lia. }
      assert (q <= n) as Hhi.
      { apply Nat.lt_succ_r, (Nat.mul_lt_mono_pos_r c); lia. }
      assert (q = n) as -> by lia. lia.
Qed.

Lemma read_chunks_parsed E self t :
  parses_to E self t -> (1 <= chunk_size self)%Z ->
  exists encoding,
    read_chunks E self =
    GLog (EncodingDetected encoding)
      (GLog (ReadingCsv encoding)
         (enumerate_yield 1
            (TextFileReader (S (length (data t))) (header t)
               (Z.to_nat (chunk_size self)) true (data t)))).
Proof.
  intros (raw & Hraw & Hread) Hc.
  exists (chardet_detect E (take sample_size raw)).
  unfold read_chunks, detect_encoding. rewrite Hraw. simpl. rewrite Hread.
  unfold read_csv. destruct (Z.ltb_spec (chunk_size self) 1) as [H|H]; [lia|]. reflexivity.
Qed.

Lemma TextFileReader_no_raise i fuel cols c first remaining :
  gen_raises (enumerate_yield i (TextFileReader fuel cols c first remaining)) = None.
Proof.
  revert i first remaining. induction fuel as [|fuel IH]; intros i first remaining; simpl.
  - reflexivity.
  - destruct remaining as [|r rs]; [destruct first|]; simpl; auto.
Qed.

(** C6 does not hold as stated for a file without data rows: the first read
    of the reader returns the empty frame, so [read_chunks] yields one batch,
    not [ceil(0 / C) = 0]. *)
Lemma chunk_count_counterexample :
  length (data header_only_table) = 0 /\
  yields (read_chunks (example_env header_only_table no_fault) (example_self 2 []))
    = [{| columns := ["id"; "name"]; rows := [] |}] /\
  length (yields (read_chunks (example_env header_only_table no_fault) (example_self 2 [])))
    <> ceil_div (length (data header_only_table)) 2.
Proof. split; [reflexivity|]. split; [reflexivity|]. vm_compute. discriminate. Qed.

(** C6, amended: for an input file that parses to a table with [R] data rows
    and a [chunk_size] [C >= 1], [read_chunks] does not raise and the rows of
    the batches it yields, put end to end, are the rows of the file in file
    order. When [R >= 1] it yields exactly [ceil(R / C)] batches, batch [i]
    (from 0) holding rows [i * C] onwards, every batch but the last with
    exactly [C] rows and the last with [R mod C] rows, or [C] when
    [R mod C = 0]. When [R = 0] it yields one batch with zero rows. *)
Theorem read_chunks_batches E self t :
  parses_to E self t ->
  (1 <= chunk_size self)%Z ->
  let C := Z.to_nat (chunk_size self) in
  let R := length (data t) in
  let ys := yields (read_chunks E self) in
  gen_raises (read_chunks E self) = None /\
  concat (rows <$> ys) = data t /\
  Forall (fun df => columns df = header t) ys /\
  (1 <= R ->
   length ys = ceil_div R C /\
   (forall i df, ys !! i = Some df -> rows df = take C (drop (i * C) (data t))) /\
   (forall i df, ys !! i = Some df -> S i < length ys -> len df = C) /\
   (forall df, last ys = Some df -> len df = if R mod C =? 0 then C else R mod C)) /\
  (R = 0 -> ys = [{| columns := header t; rows := [] |}]).
Proof.
  intros Hparse Hc. simpl.
  destruct (read_chunks_parsed E self t Hparse Hc) as [enc ->].
  cbn [yields gen_raises]. rewrite enumerate_yield_yields.
  assert (1 <= Z.to_nat (chunk_size self)) as Hc' by lia.
  split_and!.
  - apply TextFileReader_no_raise.
  - destruct (data t) as [|r rs] eqn:Hd; [reflexivity|].
    rewrite TextFileReader_first_nonempty.
    apply TextFileReader_concat; [exact Hc' | simpl; lia].
  - apply TextFileReader_columns.
  - intros HR. destruct (data t) as [|r rs] eqn:Hd; [simpl in HR; lia|].
    rewrite TextFileReader_first_nonempty.
    pose proof (TextFileReader_sizes (header t) (Z.to_nat (chunk_size self))
                  (S (length (r :: rs))) (r :: rs) Hc' ltac:(lia)) as (H1 & H2 & H3).
    split_and!; [|exact H1|exact H2|exact H3].
    apply TextFileReader_length; [exact Hc' | lia].
  - intros HR. destruct (data t) as [|r rs]; [reflexivity | discriminate].
Qed.

Lemma example_parses t fault c fs :
  parses_to (example_env t fault) (example_self c fs) t.
Proof. exists []. split; reflexivity. Qed.

Lemma read_chunks_batches_witness :
  parses_to (example_env example_table no_fault) (example_self 2 []) example_table /\
  (1 <= chunk_size (example_self 2 []))%Z /\
  concat (rows <$> yields (read_chunks (example_env example_table no_fault) (example_self 2 [])))
    = data example_table.
Proof.
  split; [apply example_parses|]. split; [simpl; lia|].
  apply (read_chunks_batches (example_env example_table no_fault) (example_self 2 [])
           example_table (example_parses _ _ _ _) ltac:(simpl; lia)).
Defined.

(** ** Input without data rows *)

(** When the generator yields no batch, [to_csv] is never called and the
    output file is empty: it has no header line. *)
Lemma no_batches_no_header E self old :
  open_w E (output_file self) = None ->
  yields (read_chunks E self) = [] ->
  f_out (process E self old).1 = [] /\ total_rows (process E self old).1 = 0.
Proof.
  intros Hopen Hys.
  pose proof (process_run E self old Hopen) as (_ & Hrows & _ & _ & Hf & _).
  simpl in *. unfold attempted in *. rewrite Hys, take_nil in *. auto.
Qed.

(** C5 does not hold as stated: for a header-only file the reader yields one
    (empty) batch, not zero; that batch is what puts the header in the
    output. Whatever the reader does, a run in which it yields no batch
    leaves no header in the file. *)
Lemma header_only_counterexample :
  data header_only_table = [] /\
  ~ (yields (read_chunks (example_env header_only_table no_fault) (example_self 1000 [])) = [] /\
     total_rows (process (example_env header_only_table no_fault) (example_self 1000 []) []).1 = 0 /\
     f_out (process (example_env header_only_table no_fault) (example_self 1000 []) []).1
       = [HeaderLine (header header_only_table)]) /\
  (forall E self old cols,
      open_w E (output_file self) = None ->
      yields (read_chunks E self) = [] ->
      f_out (process E self old).1 <> [HeaderLine cols]).
Proof.
  split; [reflexivity|]. split.
  - intros [H _]. vm_compute in H. discriminate.
  - intros E self old cols Hopen Hys.
    destruct (no_batches_no_header E self old Hopen Hys) as [-> _]. discriminate.
Qed.

(** C5, amended: for an input file that parses to a header and zero data
    rows (and a [chunk_size >= 1]), the reader yields exactly one batch, with
    the header's columns and zero rows. If the transforms return a batch with
    zero rows for it and its write succeeds, the run completes with
    [total_rows = 0] and the output file contains only the header line. *)
Theorem header_only_input E self t old chunk' :
  parses_to E self t ->
  data t = [] ->
  (1 <= chunk_size self)%Z ->
  open_w E (output_file self) = None ->
  batch_result E self 1 {| columns := header t; rows := [] |} = Ok chunk' ->
  len chunk' = 0 ->
  let st' := (process E self old).1 in
  yields (read_chunks E self) = [{| columns := header t; rows := [] |}] /\
  (process E self old).2 = None /\
  chunk_number st' = 1 /\
  total_rows st' = 0 /\
  f_out st' = [HeaderLine (columns chunk')].
Proof.
  intros Hparse Hdata Hc Hopen Hbr Hlen. simpl.
  destruct (read_chunks_parsed E self t Hparse Hc) as [enc Hg].
  unfold process. rewrite Hopen, Hg, Hdata. simpl.
  rewrite loop_body_eq. simpl. rewrite Hbr. simpl.
  rewrite (batch_output_success _ _ _ _ _ _ Hbr). unfold csv_lines. simpl.
  unfold len in Hlen. destruct (rows chunk') as [|r rs] eqn:Hrows; [|discriminate].
  unfold len. rewrite Hrows. simpl. repeat split; reflexivity.
Qed.

Lemma header_only_input_witness :
  parses_to (example_env header_only_table no_fault) (example_self 1000 []) header_only_table /\
  data header_only_table = [] /\
  (1 <= chunk_size (example_self 1000 []))%Z /\
  open_w (example_env header_only_table no_fault) (output_file (example_self 1000 [])) = None /\
  batch_result (example_env header_only_table no_fault) (example_self 1000 []) 1
    {| columns := header header_only_table; rows := [] |}
    = Ok {| columns := ["id"; "name"]; rows := [] |} /\
  len {| columns := ["id"; "name"]; rows := [] |} = 0 /\
  f_out (process (example_env header_only_table no_fault) (example_self 1000 []) []).1
    = [HeaderLine ["id"; "name"]].
Proof.
  split; [apply example_parses|]. split; [reflexivity|]. split; [simpl; lia|].
  split; [reflexivity|]. split; [reflexivity|]. split; [reflexivity|].
  apply (header_only_input (example_env header_only_table no_fault) (example_self 1000 [])
           header_only_table [] {| columns := ["id"; "name"]; rows := [] |}
           (example_parses _ _ _ _) eq_refl ltac:(simpl; lia) eq_refl eq_refl eq_refl).
Defined.

(** ** Running twice *)

(** C8: the result of [process] is a function of the input, the configuration
    and the environment; the previous content of the output file is
    discarded when the file is opened with mode ['w'], so a second run on the
    output of the first leaves the same file (and an identical log), and the
    output of a run does not depend on what the file held before. *)
Theorem process_twice_same_output E self old :
  process E self (f_out (process E self old).1) = process E self old /\
  (forall old', open_w E (output_file self) = None ->
                process E self old' = process E self old) /\
  (open_w E (output_file self) = None ->
   f_out (process E self old).1 =
   f_out (for_loop E self (read_chunks E self) (initial_state self)).1).
Proof.
  unfold process. destruct (open_w E (output_file self)) as [e|]; simpl.
  - split; [reflexivity|]. split; [intros old' H|intros H]; discriminate.
  - split; [reflexivity|]. split; [reflexivity|]. intros _.
    destruct (for_loop E self (read_chunks E self) (initial_state self)) as [st [e|]];
      reflexivity.
Qed.

Lemma process_twice_same_output_witness :
  open_w (example_env example_table no_fault) (output_file (example_self 2 [dropna])) = None /\
  process (example_env example_table no_fault) (example_self 2 [dropna])
    [HeaderLine ["old"]; DataLine [Some "stale"]]
  = process (example_env example_table no_fault) (example_self 2 [dropna]) [].
Proof.
  split; [reflexivity|].
  apply (proj1 (proj2 (process_twice_same_output
                         (example_env example_table no_fault) (example_self 2 [dropna]) []))
           [HeaderLine ["old"]; DataLine [Some "stale"]] eq_refl).
Defined.

(** ** Totals after a transform that drops rows *)

Lemma totals_count_transformed_batch_witness :
  apply_processing_funcs (example_self 2 [dropna]) example_chunk
    = Ok {| columns := ["id"; "name"]; rows := [ [Some "1"; Some "ana"] ] |} /\
  to_csv_fault (example_env example_table no_fault)
    (S (chunk_number (initial_state (example_self 2 [dropna]))))
    {| columns := ["id"; "name"]; rows := [ [Some "1"; Some "ana"] ] |} = None /\
  len example_chunk = 2 /\
  total_rows (loop_body (example_env example_table no_fault) (example_self 2 [dropna])
                (initial_state (example_self 2 [dropna])) example_chunk).1 = 0 + 1.
Proof.
  split; [reflexivity|]. split; [reflexivity|]. split; [reflexivity|].
  apply (totals_count_transformed_batch
           (example_env example_table no_fault) (example_self 2 [dropna])
           (initial_state (example_self 2 [dropna])) example_chunk
           {| columns := ["id"; "name"]; rows := [ [Some "1"; Some "ana"] ] |}
           eq_refl eq_refl).
Defined.

(** * Further properties of the run *)

(** ** The log of a run *)

Lemma for_loop_enumerate E self it st :
  batches_raise_Exceptions E self ->
  let r := for_loop E self (enumerate_yield (S (chunk_number st)) it) st in
  r.2 = iter_raises it /\
  log r.1 = log st ++ batch_logs E self (S (chunk_number st)) (iter_items it) /\
  chunk_number r.1 = chunk_number st + length (iter_items it).
Proof.
  intros Hexc. revert st. induction it as [|chunk k IH|e]; intros st.
  - simpl. rewrite app_nil_r. auto with lia.
  - cbn [enumerate_yield for_loop iter_raises iter_items batch_logs length].
    set (st0 := add_log st (ChunkRead (S (chunk_number st)) (len chunk))).
    pose proof (loop_body_fields E self st0 chunk) as (Hn & _).
    pose proof (loop_body_result E self st0 chunk) as Hres.
    pose proof (loop_body_log E self st0 chunk) as Hlog.
    change (chunk_number st0) with (chunk_number st) in *.
    assert ((loop_body E self st0 chunk).2 = None) as Hnone.
    { rewrite Hres. destruct (batch_result E self (S (chunk_number st)) chunk) as [c|e] eqn:Hbr;
        [reflexivity|]. rewrite (Hexc _ _ _ Hbr). reflexivity. }
    destruct (loop_body E self st0 chunk) as [st1 r1]. simpl in Hnone, Hn, Hlog. subst r1.
    specialize (IH st1). rewrite Hn in IH. destruct IH as (IH1 & IH2 & IH3).
    split_and!.
    + exact IH1.
    + rewrite IH2, Hlog. unfold st0. simpl. rewrite <- !app_assoc. simpl.
      do 2 f_equal.
      destruct (batch_result E self (S (chunk_number st)) chunk) as [c|e] eqn:Hbr;
        [reflexivity|]. rewrite (Hexc _ _ _ Hbr). reflexivity.
    + rewrite IH3. lia.
  - simpl. rewrite app_nil_r. auto with lia.
Qed.

(** X1: when the files open and every exception of a batch is an
    [Exception], the log of the run is: the start record, the two encoding
    records, then for each batch in order the record of its read followed by
    the record of its outcome, both with the same number counted from 1, and
    then the five summary records if and only if the reader did not fail;
    [process] raises exactly what the reader raises. *)
Theorem process_log_structure E self old raw reader :
  open_w E (output_file self) = None ->
  open_rb E (input_file self) = Ok raw ->
  pd_read_csv E (input_file self) (chunk_size self) (chardet_detect E (take sample_size raw))
    = Ok reader ->
  batches_raise_Exceptions E self ->
  let encoding := chardet_detect E (take sample_size raw) in
  let st' := (process E self old).1 in
  (process E self old).2 = iter_raises reader /\
  chunk_number st' = length (iter_items reader) /\
  log st' =
    [Started (input_file self); EncodingDetected encoding; ReadingCsv encoding]
      ++ batch_logs E self 1 (iter_items reader)
      ++ (if iter_raises reader is None
          then [ Finished (output_file self); TotalChunks (length (iter_items reader));
                 TotalRows (total_rows st'); TotalNulls (total_nulls st'); TotalTime ]
          else []).
Proof.
  intros Hopen Hraw Hread Hexc. simpl.
  pose proof (process_open_ok E self old Hopen) as (Hr & Hn & Hrows & Hnulls & _ & _ & Hlog).
  simpl in *.
  assert (read_chunks E self =
          GLog (EncodingDetected (chardet_detect E (take sample_size raw)))
            (GLog (ReadingCsv (chardet_detect E (take sample_size raw)))
               (enumerate_yield 1 reader))) as Hg.
  { unfold read_chunks, detect_encoding. rewrite Hraw. simpl. rewrite Hread. reflexivity. }
  rewrite Hg in *. cbn [for_loop] in *.
  set (st0 := add_log (add_log (initial_state self) _) _) in *.
  pose proof (for_loop_enumerate E self reader st0 Hexc) as (H1 & H2 & H3).
  change (S (chunk_number st0)) with 1 in *. simpl in H1, H2, H3.
  rewrite Hr, Hn, Hlog, Hrows, Hnulls, H1, H2, H3. split_and!; [reflexivity..|].
  unfold st0. simpl. do 3 f_equal.
  destruct (iter_raises reader); [rewrite app_nil_r; reflexivity|].
  unfold summary. fold st0. rewrite H3. reflexivity.
Qed.

Lemma no_fault_Exceptions t c (fs : list transform) :
  (forall df e, apply_funcs fs df = Raise e -> is_Exception e = true) ->
  batches_raise_Exceptions (example_env t no_fault) (example_self c fs).
Proof.
  intros H n chunk e. unfold batch_result, apply_processing_funcs. simpl.
  destruct (apply_funcs fs chunk) as [c'|e'] eqn:Hc; simpl; [discriminate|].
  intros [= <-]. apply (H _ _ Hc).
Qed.

Lemma process_log_structure_witness :
  open_w (example_env example_table no_fault) (output_file (example_self 2 [always_fail])) = None /\
  open_rb (example_env example_table no_fault) (input_file (example_self 2 [always_fail])) = Ok [] /\
  batches_raise_Exceptions (example_env example_table no_fault) (example_self 2 [always_fail]) /\
  chunk_number (process (example_env example_table no_fault) (example_self 2 [always_fail]) []).1
  = 2.
Proof.
  assert (batches_raise_Exceptions (example_env example_table no_fault)
            (example_self 2 [always_fail])) as Hexc.
  { apply no_fault_Exceptions. intros df e [= <-]. reflexivity. }
  split; [reflexivity|]. split; [reflexivity|]. split; [exact Hexc|].
  exact (proj1 (proj2 (process_log_structure
                         (example_env example_table no_fault) (example_self 2 [always_fail])
                         [] [] _ eq_refl eq_refl eq_refl Hexc))).
Defined.

(** ** The content of the output file *)

Lemma filter_data_lines (l : list row) :
  filter (fun x => is_data x = true) (DataLine <$> l) = DataLine <$> l.
Proof.
  induction l as [|r l IH]; [reflexivity|].
  rewrite fmap_cons, filter_cons_True by reflexivity. rewrite IH. reflexivity.
Qed.

Lemma length_concat_rows (dfs : list DataFrame) :
  length (concat (rows <$> dfs)) = sum_list (len <$> dfs).
Proof.
  induction dfs as [|df dfs IH]; [reflexivity|].
  rewrite !fmap_cons. cbn [concat sum_list_with id]. rewrite length_app, IH. reflexivity.
Qed.

Lemma run_output_flag_set E self n chunks :
  clean_write_failures E ->
  run_output E self n true chunks = DataLine <$> concat (rows <$> successes E self n chunks).
Proof.
  intros Hclean. revert n. induction chunks as [|chunk chunks IH]; intros n; [reflexivity|].
  cbn [run_output successes]. destruct (batch_result E self n chunk) as [c|e] eqn:Hbr.
  - rewrite (batch_output_success _ _ _ _ _ _ Hbr), IH.
    unfold csv_lines. simpl. rewrite fmap_app. reflexivity.
  - rewrite (batch_output_clean_failure _ _ _ _ _ _ Hclean Hbr), IH. reflexivity.
Qed.

Lemma run_output_flag_unset E self n chunks :
  clean_write_failures E ->
  run_output E self n false chunks =
  match successes E self n chunks with
  | [] => []
  | c :: _ => HeaderLine (columns c) :: (DataLine <$> concat (rows <$> successes E self n chunks))
  end.
Proof.
  intros Hclean. revert n. induction chunks as [|chunk chunks IH]; intros n; [reflexivity|].
  cbn [run_output successes]. unfold succeeded.
  destruct (batch_result E self n chunk) as [c|e] eqn:Hbr.
  - rewrite (batch_output_success _ _ _ _ _ _ Hbr), (run_output_flag_set _ _ _ _ Hclean).
    unfold csv_lines. simpl. rewrite fmap_app. reflexivity.
  - rewrite (batch_output_clean_failure _ _ _ _ _ _ Hclean Hbr). simpl. apply IH.
Qed.

(** X2: in a run where no failing write leaves output behind, the output
    file is the header of the first successfully processed batch followed by
    the rows of all successfully processed batches, in order and as the
    transforms returned them; the number of data lines of the file is the
    [total_rows] of the run. *)
Theorem output_holds_successful_rows E self old :
  open_w E (output_file self) = None ->
  clean_write_failures E ->
  let st' := (process E self old).1 in
  let ok := successes E self 1 (attempted (read_chunks E self) st') in
  f_out st' =
    match ok with
    | [] => []
    | c :: _ => HeaderLine (columns c) :: (DataLine <$> concat (rows <$> ok))
    end /\
  length (filter (fun l => is_data l = true) (f_out st')) = total_rows st'.
Proof.
  intros Hopen Hclean. simpl.
  pose proof (process_run E self old Hopen) as (_ & Hrows & _ & _ & Hf & _). simpl in *.
  rewrite Hf, (run_output_flag_unset _ _ _ _ Hclean). split; [reflexivity|].
  rewrite Hrows.
  destruct (successes E self 1 (attempted (read_chunks E self) (process E self old).1))
    as [|c ok] eqn:Hok; [reflexivity|].
  rewrite filter_cons_False by (simpl; discriminate).
  rewrite filter_data_lines, length_fmap. apply length_concat_rows.
Qed.

Lemma output_holds_successful_rows_witness :
  open_w (example_env example_table (fault_at 1 0)) (output_file (example_self 2 [])) = None /\
  clean_write_failures (example_env example_table (fault_at 1 0)) /\
  length (filter (fun l => is_data l = true)
            (f_out (process (example_env example_table (fault_at 1 0)) (example_self 2 []) []).1))
  = 1.
Proof.
  assert (clean_write_failures (example_env example_table (fault_at 1 0))) as Hclean.
  { intros n df k e. simpl. unfold fault_at. destruct (n =? 1); [|discriminate].
    intros [= <- _]. reflexivity. }
  split; [reflexivity|]. split; [exact Hclean|].
  exact (proj2 (output_holds_successful_rows
                  (example_env example_table (fault_at 1 0)) (example_self 2 []) []
                  eq_refl Hclean)).
Defined.

(** ** Pipelines that work row by row *)











(** ** Runs that do not reach the first batch *)

(** X5: the output file is opened, and so emptied, before the input is
    touched: when the input cannot be opened, or [pd.read_csv] raises when
    the reader is built, [process] raises that exception, no batch is
    processed, no summary is logged and the output file is left empty,
    whatever it held before. *)
Theorem setup_failure_empties_output E self old e :
  open_w E (output_file self) = None ->
  open_rb E (input_file self) = Raise e \/
  (exists raw, open_rb E (input_file self) = Ok raw /\
     pd_read_csv E (input_file self) (chunk_size self)
       (chardet_detect E (take sample_size raw)) = Raise e) ->
  let st' := (process E self old).1 in
  (process E self old).2 = Some e /\
  f_out st' = [] /\
  chunk_number st' = 0 /\
  total_rows st' = 0 /\
  (log st' = [Started (input_file self)] \/
   exists encoding,
     log st' = [Started (input_file self); EncodingDetected encoding; ReadingCsv encoding]).
Proof.
  intros Hopen [Hraw|(raw & Hraw & Hread)]; simpl;
    unfold process, read_chunks, detect_encoding; rewrite Hopen, Hraw; simpl.
  - split_and!; try reflexivity. left. reflexivity.
  - rewrite Hread. simpl. split_and!; try reflexivity. right. eauto.
Qed.

Lemma setup_failure_empties_output_witness :
  open_w (example_env example_table no_fault) (output_file (example_self 0 [])) = None /\
  (exists raw,
      open_rb (example_env example_table no_fault) (input_file (example_self 0 [])) = Ok raw /\
      pd_read_csv (example_env example_table no_fault) (input_file (example_self 0 []))
        (chunk_size (example_self 0 []))
        (chardet_detect (example_env example_table no_fault) (take sample_size raw))
      = Raise (Exn ExceptionClass "'chunksize' must be an integer >=1")) /\
  f_out (process (example_env example_table no_fault) (example_self 0 [])
           [HeaderLine ["id"]; DataLine [Some "7"]]).1 = [].
Proof.
  assert (exists raw,
      open_rb (example_env example_table no_fault) (input_file (example_self 0 [])) = Ok raw /\
      pd_read_csv (example_env example_table no_fault) (input_file (example_self 0 []))
        (chunk_size (example_self 0 []))
        (chardet_detect (example_env example_table no_fault) (take sample_size raw))
      = Raise (Exn ExceptionClass "'chunksize' must be an integer >=1")) as H.
  { exists []. split; reflexivity. }
  split; [reflexivity|]. split; [exact H|].
  exact (proj1 (proj2 (setup_failure_empties_output
                         (example_env example_table no_fault) (example_self 0 [])
                         [HeaderLine ["id"]; DataLine [Some "7"]] _ eq_refl (or_intror H)))).
Defined.



(** ** Runs that stop early *)

Lemma for_loop_stops E self g st e :
  (for_loop E self g st).2 = Some e ->
  let st' := (for_loop E self g st).1 in
  (gen_raises g = Some e /\ chunk_number st' = chunk_number st + length (yields g)) \/
  (is_Exception e = false /\
   exists m chunk,
     chunk_number st' = chunk_number st + S m /\
     yields g !! m = Some chunk /\
     batch_result E self (chunk_number st') chunk = Raise e).
Proof.
  revert st. induction g as [ev k IH|chunk k IH| |e']; intros st; simpl.
  - apply (IH (add_log st ev)).
  - pose proof (loop_body_fields E self st chunk) as (Hn & _).
    pose proof (loop_body_result E self st chunk) as Hres.
    destruct (loop_body E self st chunk) as [st1 [e'|]]; simpl in *.
    + intros [= ->]. right.
      destruct (batch_result E self (S (chunk_number st)) chunk) as [c|e'] eqn:Hbr;
        [discriminate|].
      destruct (is_Exception e') eqn:He'; [discriminate|]. injection Hres as ->.
      split; [exact He'|]. exists 0, chunk. rewrite Hn. split_and!; [lia|reflexivity|exact Hbr].
    + intros H. destruct (IH st1 H) as [[Hg Hc]|(He & m & c & Hc & Hl & Hbr)].
      * left. split; [exact Hg | lia].
      * right. split; [exact He|]. exists (S m), c. split_and!; [lia|exact Hl|exact Hbr].
  - discriminate.
  - intros [= ->]. left. split; [reflexivity | simpl; lia].
Qed.

(** X7: when [process] raises after the output file was opened, either the
    reader raised, after every batch it had yielded was dealt with, or the
    [try] block of a batch raised an exception that is not an [Exception]:
    then that batch is the last one the run got to, its number is the final
    [chunk_number], and the batches after it are never processed. *)
Theorem process_stops_at_first_uncaught E self old e :
  open_w E (output_file self) = None ->
  (process E self old).2 = Some e ->
  let g := read_chunks E self in
  let st' := (process E self old).1 in
  (gen_raises g = Some e /\ chunk_number st' = length (yields g)) \/
  (is_Exception e = false /\
   exists m chunk,
     chunk_number st' = S m /\
     yields g !! m = Some chunk /\
     batch_result E self (S m) chunk = Raise e /\
     attempted g st' = take (S m) (yields g)).
Proof.
  intros Hopen Hp. simpl.
  destruct (process_open_ok E self old Hopen) as (Hr & Hn & _). simpl in *.
  rewrite Hr in Hp. rewrite Hn.
  destruct (for_loop_stops E self _ _ e Hp) as [[Hg Hc]|(He & m & c & Hc & Hl & Hbr)];
    simpl in *.
  - left. auto.
  - right. split; [exact He|]. exists m, c. rewrite Hc in Hbr.
    split_and!; [exact Hc|exact Hl|exact Hbr|].
    unfold attempted. rewrite Hn, Hc. reflexivity.
Qed.

Lemma process_stops_at_first_uncaught_witness :
  open_w (example_env example_table no_fault) (output_file (example_self 1 [sys_exit])) = None /\
  (process (example_env example_table no_fault) (example_self 1 [sys_exit]) []).2
    = Some (Exn BaseExceptionOnly "SystemExit: 1") /\
  chunk_number (process (example_env example_table no_fault) (example_self 1 [sys_exit]) []).1
    = 1.
Proof.
  split; [reflexivity|]. split; [reflexivity|].
  destruct (process_stops_at_first_uncaught
              (example_env example_table no_fault) (example_self 1 [sys_exit]) []
              (Exn BaseExceptionOnly "SystemExit: 1") eq_refl eq_refl)
    as [[Hg _]|_]; [discriminate Hg | reflexivity].
Defined.

(** ** The batch count of the summary *)

Lemma for_loop_completed E self g st :
  (for_loop E self g st).2 = None ->
  Forall (fun p : nat * exn => is_Exception p.2 = true)
    (failures E self (S (chunk_number st)) (yields g)).
Proof.
  revert st. induction g as [ev k IH|chunk k IH| |e']; intros st; simpl.
  - apply (IH (add_log st ev)).
  - pose proof (loop_body_fields E self st chunk) as (Hn & _).
    pose proof (loop_body_result E self st chunk) as Hres.
    destruct (loop_body E self st chunk) as [st1 [e'|]]; simpl in *; [discriminate|].
    intros H. specialize (IH st1 H). rewrite Hn in IH.
    destruct (batch_result E self (S (chunk_number st)) chunk) as [c|e'] eqn:Hbr; [exact IH|].
    constructor; [|exact IH]. simpl.
    destruct (is_Exception e'); [reflexivity | discriminate].
  - constructor.
  - discriminate.
Qed.

Lemma successes_failures_length E self n chunks :
  length (successes E self n chunks) + length (failures E self n chunks) = length chunks.
Proof.
  revert n. induction chunks as [|chunk chunks IH]; intros n; [reflexivity|].
  simpl. destruct (batch_result E self n chunk); simpl; rewrite <- (IH (S n)); lia.
Qed.

(** X8: the batch count of the summary of a completed run is the number of
    batches the reader yielded, failed ones included: it is the number of
    successfully processed batches plus the number of errors in the log. *)
Theorem summary_counts_failed_batches E self old :
  open_w E (output_file self) = None ->
  (process E self old).2 = None ->
  let g := read_chunks E self in
  let st' := (process E self old).1 in
  chunk_number st' = length (yields g) /\
  chunk_number st'
    = length (successes E self 1 (yields g)) + length (logged_errors (log st')) /\
  TotalChunks (length (successes E self 1 (yields g)) + length (logged_errors (log st')))
    ∈ log st'.
Proof.
  intros Hopen Hnone. simpl.
  pose proof (process_run E self old Hopen) as (Hle & _ & _ & _ & _ & Herr & Hend & _).
  pose proof (process_open_ok E self old Hopen) as (Hr & Hn & _ & _ & _ & _ & Hlog).
  simpl in *. destruct (Hend Hnone) as [Hall _]. rewrite Hall in Herr.
  rewrite Hr in Hnone.
  pose proof (for_loop_completed E self _ _ Hnone) as Hexc. simpl in Hexc.
  assert (chunk_number (process E self old).1 = length (yields (read_chunks E self))) as Hc.
  { unfold attempted in Hall. apply (f_equal length) in Hall. rewrite length_take in Hall. lia. }
  assert (length (logged_errors (log (process E self old).1))
          = length (failures E self 1 (yields (read_chunks E self)))) as Hlen.
  { rewrite Herr. f_equal. clear -Hexc.
    induction Hexc as [|p l Hp _ IH]; [reflexivity|].
    rewrite filter_cons_True by exact Hp. rewrite IH. reflexivity. }
  split_and!.
  - exact Hc.
  - rewrite Hlen, successes_failures_length. exact Hc.
  - rewrite Hlen, successes_failures_length, Hlog, Hnone.
    apply elem_of_app. right. unfold summary. rewrite <- Hn, Hc. right. left.
Qed.

Lemma summary_counts_failed_batches_witness :
  open_w (example_env example_table (fault_at 1 0)) (output_file (example_self 2 [])) = None /\
  (process (example_env example_table (fault_at 1 0)) (example_self 2 []) []).2 = None /\
  chunk_number (process (example_env example_table (fault_at 1 0)) (example_self 2 []) []).1
  = 2.
Proof.
  split; [reflexivity|]. split; [reflexivity|].
  exact (proj1 (summary_counts_failed_batches
                  (example_env example_table (fault_at 1 0)) (example_self 2 []) []
                  eq_refl eq_refl)).
Defined.

(** ** Pipelines put end to end *)

(** X9: running the concatenation of two transform lists is running the
    first list and then the second on its result; when the first list raises,
    the second is not run and the pipeline raises that exception. A single
    callable given to [__init__] is the pipeline of that one function. *)
Theorem pipeline_concatenation :
  (forall inp out c fs gs b,
      apply_processing_funcs
        {| input_file := inp; output_file := out; chunk_size := c;
           processing_funcs := fs ++ gs |} b
      = match apply_processing_funcs
                {| input_file := inp; output_file := out; chunk_size := c;
                   processing_funcs := fs |} b with
        | Ok b' => apply_processing_funcs
                     {| input_file := inp; output_file := out; chunk_size := c;
                        processing_funcs := gs |} b'
        | Raise e => Raise e
        end) /\
  (forall inp out c f b,
      apply_processing_funcs
        {| input_file := inp; output_file := out; chunk_size := c;
           processing_funcs := init_processing_funcs (FuncsCallable f) |} b = f b).
Proof.
  split.
  - intros inp out c fs gs b. unfold apply_processing_funcs. simpl.
    rewrite apply_funcs_app. reflexivity.
  - intros inp out c f b. unfold apply_processing_funcs. simpl. apply bind_Ok_r.
Qed.

(** * Paths and construction *)

(** ** Strings *)

Lemma string_app_cons a s t : String a s +:+ t = String a (s +:+ t).
Proof. reflexivity. Qed.

Lemma string_length_app s t :
  String.length (s +:+ t) = String.length s + String.length t.
Proof.
  induction s as [|a s IH]; [reflexivity|].
  rewrite string_app_cons. simpl. rewrite IH. reflexivity.
Qed.

Lemma str_take_drop n s : str_take n s +:+ str_drop n s = s.
Proof.
  revert s. induction n as [|n IH]; intros [|a s]; try reflexivity.
  simpl. rewrite string_app_cons, IH. reflexivity.
Qed.

Lemma str_take_length n s :
  n <= String.length s -> String.length (str_take n s) = n.
Proof.
  revert s. induction n as [|n IH]; intros [|a s] H; simpl in *; try reflexivity; try lia.
  rewrite IH by lia. reflexivity.
Qed.

Lemma str_drop_app s t n : str_drop (String.length s + n) (s +:+ t) = str_drop n t.
Proof.
  induction s as [|a s IH]; [reflexivity|].
  rewrite string_app_cons. simpl. exact IH.
Qed.

Lemma str_take_app s t : str_take (String.length s) (s +:+ t) = s.
Proof.
  induction s as [|a s IH]; [destruct t; reflexivity|].
  rewrite string_app_cons. simpl. rewrite IH. reflexivity.
Qed.

Lemma rfind_dot_bounds s : (-1 <= rfind_dot s < Z.of_nat (String.length s))%Z.
Proof.
  induction s as [|a s IH]; simpl; [lia|].
  destruct (Z.leb_spec 0 (rfind_dot s)); [lia|].
  destruct (Ascii.eqb a "."); lia.
Qed.

Lemma rfind_dot_app s t :
  rfind_dot (s +:+ t) =
  if (0 <=? rfind_dot t)%Z then (Z.of_nat (String.length s) + rfind_dot t)%Z
  else rfind_dot s.
Proof.
  induction s as [|a s IH].
  - change ("" +:+ t) with t. simpl.
    destruct (Z.leb_spec 0 (rfind_dot t)); [lia|].
    pose proof (rfind_dot_bounds t). lia.
  - rewrite string_app_cons. cbn [rfind_dot String.length]. rewrite IH.
    destruct (Z.leb_spec 0 (rfind_dot t)) as [Ht|Ht].
    + destruct (Z.leb_spec 0 (Z.of_nat (String.length s) + rfind_dot t)); lia.
    + reflexivity.
Qed.

Lemma rfind_dot_drop s :
  (0 <= rfind_dot s)%Z ->
  exists t, str_drop (Z.to_nat (rfind_dot s)) s = String "." t /\ rfind_dot t = (-1)%Z.
Proof.
  induction s as [|a s IH]; simpl; [lia|].
  destruct (Z.leb_spec 0 (rfind_dot s)) as [Hs|Hs].
  - intros _. destruct (IH Hs) as (t & Ht & Hr). exists t.
    replace (Z.to_nat (rfind_dot s + 1)) with (S (Z.to_nat (rfind_dot s))) by lia.
    simpl. auto.
  - destruct (Ascii.eqb_spec a ".") as [->|Hne]; [|lia].
    intros _. exists s. simpl. split; [reflexivity|].
    pose proof (rfind_dot_bounds s). lia.
Qed.

Lemma contains_sep_app s t : contains_sep (s +:+ t) = contains_sep s || contains_sep t.
Proof.
  induction s as [|a s IH]; [reflexivity|].
  rewrite string_app_cons. simpl. rewrite IH, orb_assoc. reflexivity.
Qed.

(** ** [stem] and [suffix] *)

Lemma stem_suffix p : stem p +:+ suffix p = name p.
Proof.
  unfold stem, suffix. destruct (splits_at_dot (name p)).
  - apply str_take_drop.
  - generalize (name p). intros s. induction s as [|a s IH]; [reflexivity|].
    rewrite string_app_cons, IH. reflexivity.
Qed.

(** A suffix is empty or a dot followed by at least one character, none of
    them a dot. *)
Lemma suffix_shape p :
  suffix p = "" \/
  exists t, suffix p = String "." t /\ t <> "" /\ rfind_dot t = (-1)%Z /\
            (0 < rfind_dot (name p))%Z /\
            stem p = str_take (Z.to_nat (rfind_dot (name p))) (name p) /\
            String.length (stem p) = Z.to_nat (rfind_dot (name p)).
Proof.
  unfold suffix, stem. destruct (splits_at_dot (name p)) eqn:Hs; [|left; reflexivity].
  right. unfold splits_at_dot in Hs. apply andb_true_iff in Hs as [H1 H2].
  apply Z.ltb_lt in H1, H2.
  destruct (rfind_dot_drop (name p)) as (t & Ht & Hr); [lia|].
  exists t. split_and!; try assumption; try reflexivity.
  - intros ->.
    pose proof (str_take_drop (Z.to_nat (rfind_dot (name p))) (name p)) as Hsplit.
    apply (f_equal String.length) in Hsplit.
    rewrite string_length_app, Ht, str_take_length in Hsplit by lia. simpl in Hsplit. lia.
  - apply str_take_length. lia.
Qed.

Lemma string_app_assoc s t u : (s +:+ t) +:+ u = s +:+ t +:+ u.
Proof.
  induction s as [|a s IH]; [reflexivity|].
  rewrite !string_app_cons, IH. reflexivity.
Qed.

(** A name made of a non-empty part, a dot and a non-empty part without dot
    splits there. *)
Lemma split_name d s t :
  s <> "" -> t <> "" -> rfind_dot t = (-1)%Z ->
  let p := {| parent := d; name := s +:+ String "." t |} in
  suffix p = String "." t /\ stem p = s.
Proof.
  intros Hs Ht Hr. simpl.
  assert (rfind_dot (s +:+ String "." t) = Z.of_nat (String.length s)) as Hi.
  { rewrite rfind_dot_app. simpl. rewrite Hr. simpl. lia. }
  assert (0 < String.length s) as Hls by (destruct s; [congruence | simpl; lia]).
  assert (0 < String.length t) as Hlt by (destruct t; [congruence | simpl; lia]).
  unfold suffix, stem, splits_at_dot. simpl. rewrite Hi, string_length_app. simpl.
  destruct (Z.ltb_spec 0 (Z.of_nat (String.length s))); [|lia].
  destruct (Z.ltb_spec (Z.of_nat (String.length s))
              (Z.of_nat (String.length s + S (String.length t)) - 1)); [|lia].
  simpl. rewrite Nat2Z.id. split.
  - rewrite <- (Nat.add_0_r (String.length s)) at 1. apply str_drop_app.
  - apply str_take_app.
Qed.

Lemma with_name_Ok p new q :
  with_name p new = Ok q ->
  q = {| parent := parent p; name := new |} /\ name p <> "".
Proof.
  unfold with_name. destruct (String.eqb_spec (name p) "") as [|Hne]; [discriminate|].
  destruct (_ || _ || _); [discriminate|]. intros [= <-]. auto.
Qed.

(** The names [__init__] derives from a name without separator are accepted
    by [with_name]. *)
Lemma derived_name_valid p tail :
  contains_sep (name p) = false ->
  contains_sep tail = false ->
  2 <= String.length tail ->
  (String.eqb (stem p +:+ tail) "" || contains_sep (stem p +:+ tail)
   || String.eqb (stem p +:+ tail) ".") = false.
Proof.
  intros Hsep Htail Hlen.
  rewrite <- (stem_suffix p), contains_sep_app in Hsep. apply orb_false_iff in Hsep as [Hst _].
  rewrite contains_sep_app, Hst, Htail.
  assert (2 <= String.length (stem p +:+ tail)) as Hl by (rewrite string_length_app; lia).
  destruct (String.eqb_spec (stem p +:+ tail) "") as [H|_]; [rewrite H in Hl; simpl in Hl; lia|].
  destruct (String.eqb_spec (stem p +:+ tail) ".") as [H|_]; [rewrite H in Hl; simpl in Hl; lia|].
  reflexivity.
Qed.

(** X10: [stem] and [suffix] split the name ([stem + suffix] is the name),
    and the paths [__init__] derives from the input path lie in the same
    directory and never coincide: the default output file is not the input
    file, and the log file is neither the input file nor the default output
    file. *)
Theorem derived_paths_are_distinct p out lf :
  _default_output_file p = Ok out ->
  log_file_of p = Ok lf ->
  stem p +:+ suffix p = name p /\
  parent out = parent p /\ parent lf = parent p /\
  name out <> name p /\ name lf <> name p /\ name lf <> name out.
Proof.
  intros Hout Hlf.
  apply with_name_Ok in Hout as [-> _]. apply with_name_Ok in Hlf as [-> _]. simpl.
  split_and!; try reflexivity.
  - apply stem_suffix.
  - intros H. rewrite <- (stem_suffix p) in H. apply (inj (String.app (stem p))) in H.
    apply (f_equal String.length) in H. rewrite string_length_app in H. simpl in H. lia.
  - intros H. rewrite <- (stem_suffix p) in H. apply (inj (String.app (stem p))) in H.
    destruct (suffix_shape p) as [Hs|(t & Hs & _)]; rewrite Hs in H; discriminate.
  - intros H. apply (inj (String.app (stem p))) in H. vm_compute in H.
    discriminate.
Qed.

Lemma derived_paths_are_distinct_witness :
  _default_output_file {| parent := "in"; name := "data.csv" |}
    = Ok {| parent := "in"; name := "data_processed.csv" |} /\
  log_file_of {| parent := "in"; name := "data.csv" |}
    = Ok {| parent := "in"; name := "data_processing.log" |} /\
  "data_processing.log" <> "data_processed.csv".
Proof.
  split; [reflexivity|]. split; [reflexivity|].
  exact (proj2 (proj2 (proj2 (proj2 (proj2
           (derived_paths_are_distinct {| parent := "in"; name := "data.csv" |}
              {| parent := "in"; name := "data_processed.csv" |}
              {| parent := "in"; name := "data_processing.log" |} eq_refl eq_refl)))))).
Defined.

(** X11: when the input file has an extension, the default output file has
    the same extension and the stem of the input followed by [_processed];
    the log file always has the extension [.log]. *)
Theorem derived_paths_extensions p out lf :
  _default_output_file p = Ok out ->
  log_file_of p = Ok lf ->
  (suffix p <> "" -> suffix out = suffix p /\ stem out = stem p +:+ "_processed") /\
  suffix lf = ".log" /\
  stem lf = stem p +:+ "_processing".
Proof.
  intros Hout Hlf.
  apply with_name_Ok in Hout as [-> _]. apply with_name_Ok in Hlf as [-> _].
  split.
  - intros Hne. destruct (suffix_shape p) as [Hs|(t & Hs & Ht & Hr & _)]; [contradiction|].
    rewrite Hs, <- string_app_assoc.
    apply split_name; [|exact Ht|exact Hr].
    intros H. apply (f_equal String.length) in H. rewrite string_length_app in H.
    simpl in H. lia.
  - change "_processing.log" with ("_processing" +:+ String "." "log").
    rewrite <- string_app_assoc.
    apply split_name; [|discriminate|reflexivity].
    intros H. apply (f_equal String.length) in H. rewrite string_length_app in H.
    simpl in H. lia.
Qed.

Lemma derived_paths_extensions_witness :
  _default_output_file {| parent := "in"; name := "sales.2024.csv" |}
    = Ok {| parent := "in"; name := "sales.2024_processed.csv" |} /\
  log_file_of {| parent := "in"; name := "sales.2024.csv" |}
    = Ok {| parent := "in"; name := "sales.2024_processing.log" |} /\
  suffix {| parent := "in"; name := "sales.2024_processing.log" |} = ".log".
Proof.
  split; [reflexivity|]. split; [reflexivity|].
  exact (proj1 (proj2 (derived_paths_extensions {| parent := "in"; name := "sales.2024.csv" |}
              {| parent := "in"; name := "sales.2024_processed.csv" |}
              {| parent := "in"; name := "sales.2024_processing.log" |} eq_refl eq_refl))).
Defined.

(** ** [__init__] *)

Lemma derived_paths_Ok p :
  contains_sep (name p) = false -> name p <> "" ->
  _default_output_file p
    = Ok {| parent := parent p; name := stem p +:+ "_processed" +:+ suffix p |} /\
  log_file_of p = Ok {| parent := parent p; name := stem p +:+ "_processing.log" |}.
Proof.
  intros Hsep Hne. unfold _default_output_file, log_file_of, with_name.
  destruct (String.eqb_spec (name p) "") as [|_]; [contradiction|].
  assert (contains_sep (suffix p) = false) as Hsuf.
  { rewrite <- (stem_suffix p), contains_sep_app in Hsep.
    apply orb_false_iff in Hsep as [_ H]. exact H. }
  assert (contains_sep ("_processed" +:+ suffix p) = false) as Htail
      by (rewrite contains_sep_app, Hsuf; reflexivity).
  assert (2 <= String.length ("_processed" +:+ suffix p)) as Hlen
      by (rewrite string_length_app; simpl; lia).
  rewrite (derived_name_valid p ("_processed" +:+ suffix p) Hsep Htail Hlen).
  rewrite (derived_name_valid p "_processing.log" Hsep eq_refl ltac:(simpl; lia)).
  split; reflexivity.
Qed.

(** X12: for an input path whose name has no separator, [__init__] raises
    [ValueError] when that name is empty, also when an output file is given;
    otherwise it raises what opening the log file raises, if anything, and
    else returns the processor with the given output file, or the default
    one beside the input when none is given, the log file beside the input,
    the default chunk size 1000 when none is given, and two more handlers on
    the logger named after the stem of the input. *)
Theorem init_outcome fspath open_log loggers input output c pf :
  contains_sep (name input) = false ->
  (name input = "" ->
   init fspath open_log loggers input output c pf
   = Raise (Exn ExceptionClass "ValueError: path has an empty name")) /\
  (name input <> "" ->
   let out := default {| parent := parent input;
                         name := stem input +:+ "_processed" +:+ suffix input |} output in
   let lf := {| parent := parent input; name := stem input +:+ "_processing.log" |} in
   init fspath open_log loggers input output c pf =
   match open_log lf with
   | Some e => Raise e
   | None =>
       Ok ({| self_of := {| input_file := fspath input; output_file := fspath out;
                            chunk_size := default 1000%Z c;
                            processing_funcs := init_processing_funcs pf |};
              output_path := out; log_file := lf; logger := logger_name input |},
           addHandler (addHandler loggers (logger_name input) (FileHandler lf))
             (logger_name input) StreamHandler)
   end).
Proof.
  intros Hsep. split.
  - intros Hempty. unfold init, _default_output_file, log_file_of, with_name.
    rewrite Hempty. destruct output; reflexivity.
  - intros Hne. simpl. destruct (derived_paths_Ok input Hsep Hne) as [Hout Hlf].
    unfold init. rewrite Hout, Hlf. unfold _setup_logger.
    destruct output as [o|]; simpl; destruct (open_log _); reflexivity.
Qed.

Lemma init_outcome_witness :
  contains_sep (name {| parent := "in"; name := "" |}) = false /\
  name {| parent := "in"; name := "" |} = "" /\
  init (fun p => name p) (fun _ => None) ∅ {| parent := "in"; name := "" |}
    (Some {| parent := "out"; name := "result.csv" |}) None FuncsNone
  = Raise (Exn ExceptionClass "ValueError: path has an empty name").
Proof.
  split; [reflexivity|]. split; [reflexivity|].
  exact (proj1 (init_outcome (fun p => name p) (fun _ => None) ∅
                  {| parent := "in"; name := "" |}
                  (Some {| parent := "out"; name := "result.csv" |}) None FuncsNone eq_refl)
           eq_refl).
Defined.

(** ** Handlers *)





(** * A reader that fails during the run *)

(** X14: when the reader raises after some batches (a line that cannot be
    parsed) and every exception of a batch is an [Exception], [process]
    raises the reader's exception after every batch yielded before it has
    been dealt with: the output file keeps what these batches wrote and the
    totals are those of the successful ones among them. *)
Theorem reader_failure_keeps_batches E self old e :
  open_w E (output_file self) = None ->
  gen_raises (read_chunks E self) = Some e ->
  batches_raise_Exceptions E self ->
  let g := read_chunks E self in
  let st' := (process E self old).1 in
  (process E self old).2 = Some e /\
  chunk_number st' = length (yields g) /\
  total_rows st' = sum_list (len <$> successes E self 1 (yields g)) /\
  f_out st' = run_output E self 1 false (yields g).
Proof.
  intros Hopen Hgen Hexc. simpl.
  pose proof (process_run E self old Hopen) as (Hle & Hrows & _ & _ & Hf & _ & Hend & _).
  pose proof (process_open_ok E self old Hopen) as (Hr & Hn & _). simpl in *.
  rewrite Hr in *.
  destruct (for_loop E self (read_chunks E self) (initial_state self)).2 as [e'|] eqn:Hp.
  - destruct (for_loop_stops E self _ _ e' Hp) as [[Hg Hc]|(He & m & c & _ & _ & Hbr)];
      simpl in *.
    + assert (attempted (read_chunks E self) (process E self old).1
              = yields (read_chunks E self)) as Hall.
      { unfold attempted. rewrite Hn, Hc. apply firstn_all. }
      rewrite Hall in *. rewrite Hn, Hc. split_and!; try assumption; try reflexivity.
      congruence.
    + rewrite (Hexc _ _ _ Hbr) in He. discriminate.
  - destruct (Hend eq_refl) as [_ Hg]. congruence.
Qed.

Lemma reader_failure_keeps_batches_witness :
  open_w broken_reader_env (output_file (example_self 2 [])) = None /\
  gen_raises (read_chunks broken_reader_env (example_self 2 [])) = Some parser_error /\
  batches_raise_Exceptions broken_reader_env (example_self 2 []) /\
  f_out (process broken_reader_env (example_self 2 []) []).1
  = run_output broken_reader_env (example_self 2 []) 1 false [example_chunk].
Proof.
  assert (batches_raise_Exceptions broken_reader_env (example_self 2 [])) as Hexc.
  { intros n chunk e H. vm_compute in H. discriminate. }
  split; [reflexivity|]. split; [reflexivity|]. split; [exact Hexc|].
  exact (proj2 (proj2 (proj2 (reader_failure_keeps_batches
           broken_reader_env (example_self 2 []) [] parser_error eq_refl eq_refl Hexc)))).
Defined.
